(** * Templatar: delimiter-bounded placeholder substitution (src/index.js)

    A shallow embedding of the [Templatar] class: the constructor with its
    defaulting of options, and [replace], which compiles the delimiters into
    a regular expression, scans the template with it and calls the replacer
    callback on every match.

    Strings are sequences of 8-bit code units ([list ascii]); a number is
    the Number value of an integer ([VNum], rounded to the nearest double)
    or one of the other Number values ([VFloat]).
    The two imported collaborators, dot-prop's [getProperty] and Node's
    [util.inspect], are an interface ([Host]); a dotted-path lookup is given
    in [DotProp] and the rendering of [util.inspect] in [Node]. *)

From Stdlib Require Import List Ascii ZArith Lia Bool PeanoNat.
From Stdlib Require String DecimalString Floats Uint63.
Import ListNotations String.StringSyntax.

Definition str := list ascii.
Coercion String.list_ascii_of_string : String.string >-> list.

Set Warnings "-register-all".

#[local] Open Scope string_scope.
#[local] Open Scope list_scope.
#[local] Open Scope nat_scope.

(** Literals as texts. *)
Definition texts (l : list String.string) : list str :=
  map String.list_ascii_of_string l.

(** ** The JavaScript values and string primitives the engine uses *)
Module JS.

(** The Number values that are not written as an integer: NaN, the
    infinities, the negative zero, and the double nearest to the decimal
    [m * 10 ^ e]. *)
Inductive number :=
| NaN
| Infinity (negative : bool)
| NegativeZero
| Decimal (m e : Z).

Inductive value : Type :=
| VUndefined
| VNull
| VBool (b : bool)
| VNum (n : Z)
| VStr (s : str)
| VArr (elems : list value)
| VObj (props : list (str * value))
| VFloat (x : number).

(** The results of the [typeof] operator on these values. *)
Inductive type_tag := TUndefined | TObject | TBoolean | TNumber | TString.

Definition typeof (v : value) : type_tag :=
  match v with
  | VUndefined => TUndefined
  | VNull => TObject
  | VBool _ => TBoolean
  | VNum _ => TNumber
  | VStr _ => TString
  | VArr _ => TObject
  | VObj _ => TObject
  | VFloat _ => TNumber
  end.

Definition tag_eqb (a b : type_tag) : bool :=
  match a, b with
  | TUndefined, TUndefined | TObject, TObject | TBoolean, TBoolean
  | TNumber, TNumber | TString, TString => true
  | _, _ => false
  end.

(** [value === undefined] *)
Definition is_undefined (v : value) : bool :=
  match v with VUndefined => true | _ => false end.

(** [value === null] *)
Definition is_null (v : value) : bool :=
  match v with VNull => true | _ => false end.

(** The decimal digits of a natural integer. *)
Definition decimal (n : Z) : str :=
  DecimalString.NilZero.string_of_int (Z.to_int n).

(** The Number value of a positive mathematical integer [a]: the nearest
    double, ties to even, as mantissa and binary exponent
    ([m * 2 ^ e], with [2 ^ 52 <= m < 2 ^ 53] when [e > 0]); [None] is
    Infinity. *)
Definition to_double (a : Z) : option (Z * Z) :=
  let b := Z.log2 a in
  if (b <? 53)%Z then Some (a, 0%Z)
  else
    let sh := (b - 52)%Z in
    let q := Z.shiftr a sh in
    let r := (a - Z.shiftl q sh)%Z in
    let half := Z.shiftl 1 (sh - 1) in
    let up := (half <? r)%Z || ((r =? half)%Z && Z.odd q) in
    let m := if up then (q + 1)%Z else q in
    let '(m, sh) := if (m =? Z.shiftl 1 53)%Z then (Z.shiftl 1 52, (sh + 1)%Z)
                    else (m, sh) in
    if (971 <? sh)%Z then None else Some (m, sh).

(** The decimal numbers that round to the double [m * 2 ^ e] ([e > 0]):
    twice the bounds of its rounding interval, which are in it when [m] is
    even. *)
Definition rounds_to (m e : Z) (y : Z) : bool :=
  let x2 := (2 * Z.shiftl m e)%Z in
  let hi2 := (x2 + Z.shiftl 1 e)%Z in
  let lo2 := (x2 - (if (m =? Z.shiftl 1 52)%Z then Z.shiftl 1 (e - 1)
                    else Z.shiftl 1 e))%Z in
  if Z.even m then (lo2 <=? 2 * y)%Z && (2 * y <=? hi2)%Z
  else (lo2 <? 2 * y)%Z && (2 * y <? hi2)%Z.

(** Number::toString, step 5: the least number [k] of digits and the
    integer [s] of [k] digits with [s * 10 ^ (n - k)] rounding to [x], the
    closest to [x] when there are two (the even one on a tie).  [fuel]
    counts the lengths left to try. *)
Fixpoint shortest (fuel : nat) (m e x : Z) (n k : Z) : Z * Z * Z :=
  match fuel with
  | 0 => (x, n, n)
  | S fuel' =>
      let p := (10 ^ (n - k))%Z in
      let s0 := (x / p)%Z in
      let ok0 := rounds_to m e (s0 * p) in
      let ok1 := rounds_to m e ((s0 + 1) * p) in
      let d0 := (x - s0 * p)%Z in
      let d1 := ((s0 + 1) * p - x)%Z in
      let pick1 := ok1 && (negb ok0 || (d1 <? d0)%Z
                           || ((d1 =? d0)%Z && Z.odd s0)) in
      if pick1 then
        if (s0 + 1 =? 10 ^ k)%Z then (10 ^ (k - 1), k, n + 1)%Z
        else ((s0 + 1)%Z, k, n)
      else if ok0 then (s0, k, n)
      else if (k <? n)%Z then shortest fuel' m e x n (k + 1)%Z
      else (x, n, n)
  end.

(** Number::toString, steps 6-10, for a positive integer value. *)
Definition digits_text (s k n : Z) : str :=
  let d := decimal s in
  if (n <=? 21)%Z then d ++ repeat "0"%char (Z.to_nat (n - k))
  else
    match d with
    | [] => []
    | c :: rest =>
        (c :: match rest with [] => [] | _ => "."%char :: rest end)
        ++ "e+" ++ decimal (n - 1)
    end.

Definition positive_text (a : Z) : str :=
  match to_double a with
  | None => "Infinity"
  | Some (m, e) =>
      if (e =? 0)%Z then decimal a
      else
        let x := Z.shiftl m e in
        let n := Z.of_nat (length (decimal x)) in
        let '(s, k, n') := shortest 17 m e x n 1%Z in
        digits_text s k n'
  end.

(** Number::toString (radix 10) on the Number value of the integer [n],
    the double nearest to it. *)
Definition NumberToString (n : Z) : str :=
  match n with
  | Z0 => "0"
  | Zpos _ => positive_text n
  | Zneg _ => "-"%char :: positive_text (- n)
  end.

(** A positive rational as a numerator over a denominator. *)
Definition ratio : Type := Z * Z.

Definition power (b j : Z) : ratio :=
  if (0 <=? j)%Z then ((b ^ j)%Z, 1%Z) else (1%Z, (b ^ (- j))%Z).

Definition times (a b : ratio) : ratio :=
  ((fst a * fst b)%Z, (snd a * snd b)%Z).

Definition floor (a : ratio) : Z := (fst a / snd a)%Z.

Definition less (a b : ratio) : bool := (fst a * snd b <? fst b * snd a)%Z.
Definition at_most (a b : ratio) : bool := (fst a * snd b <=? fst b * snd a)%Z.

(** The double nearest to [p / q] (ties to even) as mantissa and binary
    exponent; [None] when the rounding overflows. *)
Definition nearest_double (p q : Z) : option (Z * Z) :=
  let e0 := (Z.log2 p - Z.log2 q - 52)%Z in
  let e1 :=
    if (floor (times (p, q) (power 2 (- e0))) <? 2 ^ 52)%Z then (e0 - 1)%Z
    else e0 in
  let e := Z.max e1 (-1074) in
  let x := times (p, q) (power 2 (- e)) in
  let t := floor x in
  let r := (fst x - t * snd x)%Z in
  let up := (snd x <? 2 * r)%Z || ((2 * r =? snd x)%Z && Z.odd t) in
  let m := if up then (t + 1)%Z else t in
  let '(m, e) := if (m =? 2 ^ 53)%Z then ((2 ^ 52)%Z, (e + 1)%Z) else (m, e) in
  if (971 <? e)%Z then None else Some (m, e).

(** [y] rounds to the double [m * 2 ^ e]. *)
Definition rounds_to_double (m e : Z) (y : ratio) : bool :=
  let hi := times ((2 * m + 1)%Z, 1%Z) (power 2 (e - 1)) in
  let lo :=
    if (m =? 2 ^ 52)%Z && (-1074 <? e)%Z
    then times ((4 * m - 1)%Z, 1%Z) (power 2 (e - 2))
    else times ((2 * m - 1)%Z, 1%Z) (power 2 (e - 1)) in
  if Z.even m then at_most lo y && at_most y hi
  else less lo y && less y hi.

(** The least [n] with [v < 10 ^ n], searched downwards or upwards from
    [n]. *)
Fixpoint magnitude (fuel : nat) (v : ratio) (n : Z) : Z :=
  match fuel with
  | 0 => n
  | S fuel' =>
      if at_most (power 10 n) v then magnitude fuel' v (n + 1)%Z
      else if less v (power 10 (n - 1)) then magnitude fuel' v (n - 1)%Z
      else n
  end.

(** The digits [s], their number [k] and the exponent [n] of
    Number::toString: the fewest digits that round to the double, the
    closest to it among these. *)
Fixpoint shortest_digits (fuel : nat) (m e : Z) (v : ratio) (n k : Z)
    : Z * Z * Z :=
  match fuel with
  | 0 => (0%Z, k, n)
  | S fuel' =>
      let u := power 10 (n - k) in
      let s0 := floor (times v (snd u, fst u)) in
      let ok0 := rounds_to_double m e (times (s0, 1%Z) u) in
      let ok1 := rounds_to_double m e (times ((s0 + 1)%Z, 1%Z) u) in
      let twice := times (2%Z, 1%Z) v in
      let middle := times ((2 * s0 + 1)%Z, 1%Z) u in
      let pick1 :=
        ok1 && (negb ok0 || less middle twice
                || (negb (less twice middle) && Z.odd s0)) in
      if pick1 then
        if (s0 + 1 =? 10 ^ k)%Z then ((10 ^ (k - 1))%Z, k, (n + 1)%Z)
        else ((s0 + 1)%Z, k, n)
      else if ok0 then (s0, k, n)
      else shortest_digits fuel' m e v n (k + 1)%Z
  end.

Definition zeros (n : Z) : str := repeat "0"%char (Z.to_nat n).

(** Steps 6 to 12 of Number::toString on the digits. *)
Definition digits_layout (s k n : Z) : str :=
  let d := decimal s in
  if (-6 <? n)%Z && (n <=? 21)%Z then
    if (k <=? n)%Z then d ++ zeros (n - k)
    else if (0 <? n)%Z then
      firstn (Z.to_nat n) d ++ "." ++ skipn (Z.to_nat n) d
    else "0." ++ zeros (- n) ++ d
  else
    let exponent : str :=
      (if (0 <? n - 1)%Z then ("e+" : str) else ("e-" : str)) ++ decimal (Z.abs (n - 1)) in
    match d with
    | [] => []
    | c :: rest =>
        (c :: match rest with [] => [] | _ :: _ => "."%char :: rest end)
        ++ exponent
    end.

(** Number::toString on the double nearest to the positive [p / q]. *)
Definition ratio_text (p q : Z) : str :=
  match nearest_double p q with
  | None => "Infinity"
  | Some (m, e) =>
      if (m =? 0)%Z then "0"
      else
        let v := times (m, 1%Z) (power 2 e) in
        let n := magnitude 700 v 0 in
        let '(s, k, n') := shortest_digits 17 m e v n 1 in
        digits_layout s k n'
  end.

Definition DecimalToString (m e : Z) : str :=
  let r := times (Z.abs m, 1%Z) (power 10 e) in
  match m with
  | Z0 => "0"
  | Zpos _ => ratio_text (fst r) (snd r)
  | Zneg _ =>
      match ratio_text (fst r) (snd r) with
      | ["0"%char] => "0"
      | t => "-"%char :: t
      end
  end.

(** The decimal denotes a zero below zero: a negative one too small for
    the least double. *)
Definition rounds_to_zero (m e : Z) : bool :=
  let r := times (Z.abs m, 1%Z) (power 10 e) in
  match nearest_double (fst r) (snd r) with
  | Some (0%Z, _) => true
  | _ => false
  end.

(** [Object.is(x, -0)] *)
Definition is_negative_zero (x : number) : bool :=
  match x with
  | NegativeZero => true
  | Decimal (Zneg p) e => rounds_to_zero (Zneg p) e
  | _ => false
  end.

(** Number::toString (radix 10) on the other Number values. *)
Definition Number_toString (x : number) : str :=
  match x with
  | NaN => "NaN"
  | Infinity negative => if negative then "-Infinity" else "Infinity"
  | NegativeZero => "0"
  | Decimal m e => DecimalToString m e
  end.

(** [String(v)]: ToString on primitives; on an array the elements joined by
    a comma with [null] and [undefined] rendered empty (Array.prototype.join);
    on a plain object the tag of Object.prototype.toString. *)
Fixpoint ToString (v : value) : str :=
  match v with
  | VUndefined => "undefined"
  | VNull => "null"
  | VBool b => if b then "true" else "false"
  | VNum n => NumberToString n
  | VStr s => s
  | VArr l =>
      (fix join (l : list value) : str :=
         match l with
         | [] => []
         | x :: l' =>
             let e : str := match x with
                            | VUndefined | VNull => []
                            | _ => ToString x
                            end in
             match l' with
             | [] => e
             | _ :: _ => e ++ "," ++ join l'
             end
         end) l
  | VObj _ => "[object Object]"
  | VFloat x => Number_toString x
  end.

(** WhiteSpace and LineTerminator code units below 256: TAB, LF, VT, FF, CR,
    SP and NBSP.  This is the set [trim] strips and [\s] matches. *)
Definition is_space (c : ascii) : bool :=
  let n := nat_of_ascii c in
  ((9 <=? n) && (n <=? 13)) || (n =? 32) || (n =? 160).

Definition is_digit (c : ascii) : bool :=
  let n := nat_of_ascii c in (48 <=? n) && (n <=? 57).

(** The characters of [\w]: letters, digits and the underscore. *)
Definition is_word (c : ascii) : bool :=
  let n := nat_of_ascii c in
  ((65 <=? n) && (n <=? 90)) || ((97 <=? n) && (n <=? 122))
  || is_digit c || (n =? 95).

Fixpoint trimStart (s : str) : str :=
  match s with
  | c :: s' => if is_space c then trimStart s' else s
  | [] => []
  end.

Definition trimEnd (s : str) : str := rev (trimStart (rev s)).

(** [String.prototype.trim] *)
Definition trim (s : str) : str := trimEnd (trimStart s).

(** [s.split('||')]: the pieces of [s] between all the occurrences of the
    separator, scanned left to right; [cur] is the piece being read,
    reversed. *)
Definition is_bars (c c' : ascii) : bool :=
  Ascii.eqb c "|" && Ascii.eqb c' "|".

(** A character other than the bar. *)
Definition no_bar (c : ascii) : bool := negb (Ascii.eqb c "|").

Fixpoint split_bars_from (cur : str) (s : str) : list str :=
  match s with
  | [] => [rev cur]
  | c :: rest =>
      match rest with
      | c' :: rest' =>
          if is_bars c c' then rev cur :: split_bars_from [] rest'
          else split_bars_from (c :: cur) rest
      | [] => split_bars_from (c :: cur) rest
      end
  end.

Definition split_bars (s : str) : list str := split_bars_from [] s.

(** [s.startsWith(p)], returning what follows the prefix. *)
Fixpoint strip_prefix (p s : str) : option str :=
  match p with
  | [] => Some s
  | a :: p' =>
      match s with
      | b :: s' => if Ascii.eqb a b then strip_prefix p' s' else None
      | [] => None
      end
  end.

End JS.

(** ** [util.inspect] of Node, which src/index.js imports: the rendering
    of lib/internal/util/inspect.js on the values of the model (plain
    arrays and objects, primitives), with the default options [breakLength]
    80, [compact] 3, [maxArrayLength] 100, [maxStringLength] 10000 and no
    colors *)
Module Node.
Import JS.

Definition breakLength : nat := 80.
Definition compact : nat := 3.
Definition maxArrayLength : nat := 100.
Definition maxStringLength : nat := 100 * 100.
Definition kMinLineWidth : nat := 16.

Definition decimal (n : nat) : str :=
  DecimalString.NilZero.string_of_uint (Nat.to_uint n).

Definition newline : ascii := "010".
Definition double_quote : ascii := "034".

Definition spaces (n : nat) : str := repeat " "%char n.

Fixpoint join (sep : str) (l : list str) : str :=
  match l with
  | [] => []
  | x :: l' => match l' with [] => x | _ :: _ => x ++ sep ++ join sep l' end
  end.

Fixpoint includes (p s : str) : bool :=
  match strip_prefix p s with
  | Some _ => true
  | None => match s with [] => false | _ :: s' => includes p s' end
  end.

Inductive quotes := SingleQuote | DoubleQuote | Backtick.

(** The quotes [strEscape] puts around a string: double quotes when it
    holds a single quote and no double quote, backticks when it holds both
    and neither a backtick nor [${], single quotes otherwise. *)
Definition quotes_of (s : str) : quotes :=
  if includes ["'"%char] s then
    if negb (includes [double_quote] s) then DoubleQuote
    else if negb (includes ["`"%char] s) && negb (includes "${" s)
         then Backtick
         else SingleQuote
  else SingleQuote.

Definition quote_char (q : quotes) : ascii :=
  match q with
  | SingleQuote => "'"
  | DoubleQuote => double_quote
  | Backtick => "`"
  end.

Definition hex_digit (n : nat) : ascii := nth n "0123456789ABCDEF" "0"%char.

(** The table [meta]: the escape of a character, when it has one. *)
Definition escape_of (q : quotes) (c : ascii) : option str :=
  let n := nat_of_ascii c in
  if n =? 8 then Some ("\b" : str)
  else if n =? 9 then Some ("\t" : str)
  else if n =? 10 then Some ("\n" : str)
  else if n =? 12 then Some ("\f" : str)
  else if n =? 13 then Some ("\r" : str)
  else if (n <? 32) || ((126 <? n) && (n <? 160)) then
    Some ("\x" ++ [hex_digit (n / 16); hex_digit (n mod 16)])
  else if n =? 92 then Some ("\\" : str)
  else if n =? 39 then
    match q with SingleQuote => Some ("\'" : str) | _ => None end
  else None.

Definition strEscape (s : str) : str :=
  let q := quotes_of s in
  quote_char q
  :: flat_map (fun c => match escape_of q c with
                        | Some e => e
                        | None => [c]
                        end) s
  ++ [quote_char q].

(** The pieces of a text cut after each line feed. *)
Fixpoint lines_from (cur : str) (s : str) : list str :=
  match s with
  | [] => match cur with [] => [] | _ :: _ => [rev cur] end
  | c :: s' =>
      if Ascii.eqb c newline then rev (c :: cur) :: lines_from [] s'
      else lines_from (c :: cur) s'
  end.

Definition plural (n : nat) : str := if 1 <? n then "s" else [].

Definition formatString (indentationLvl : nat) (s : str) : str :=
  let v := firstn maxStringLength s in
  let remaining := length s - maxStringLength in
  let trailer : str :=
    if 0 <? remaining then
      "... " ++ decimal remaining ++ " more character" ++ plural remaining
    else [] in
  if (kMinLineWidth <? length v)
     && (breakLength - indentationLvl - 4 <? length v) then
    join (" +" ++ newline :: spaces (indentationLvl + 2))
         (map strEscape (lines_from [] v))
    ++ trailer
  else strEscape v ++ trailer.

Definition formatPrimitive (indentationLvl : nat) (v : value) : str :=
  match v with
  | VUndefined => "undefined"
  | VNull => "null"
  | VBool b => if b then "true" else "false"
  | VNum n => NumberToString n
  | VFloat x => if is_negative_zero x then "-0" else Number_toString x
  | VStr s => formatString indentationLvl s
  | _ => []
  end.

Definition is_letter (c : ascii) : bool :=
  let n := nat_of_ascii c in
  ((65 <=? n) && (n <=? 90)) || ((97 <=? n) && (n <=? 122)) || (n =? 95).

Definition is_letter_or_digit (c : ascii) : bool :=
  let n := nat_of_ascii c in
  is_letter c || ((48 <=? n) && (n <=? 57)).

(** [keyStrRegExp], [/^[a-zA-Z_][a-zA-Z_0-9]*$/]. *)
Definition is_identifier (k : str) : bool :=
  match k with
  | [] => false
  | c :: rest => is_letter c && forallb is_letter_or_digit rest
  end.

Definition property_name (k : str) : str :=
  if list_eq_dec Ascii.ascii_dec k "__proto__" then "['__proto__']"
  else if is_identifier k then k
  else strEscape k.

Definition fl (n : nat) : PrimFloat.float :=
  PrimFloat.of_uint63 (Uint63.of_Z (Z.of_nat n)).

(** [Math.round] of a float that is not negative, up to 15. *)
Definition round_to_15 (q : PrimFloat.float) : nat :=
  length (filter (fun j => PrimFloat.leb
                             (PrimFloat.div (fl (2 * j - 1)) (fl 2)) q)
                 (seq 1 15)).

Definition is_number (v : value) : bool :=
  match v with VNum _ | VFloat _ => true | _ => false end.

Definition padStart (s : str) (n : nat) : str := spaces (n - length s) ++ s.
Definition padEnd (s : str) (n : nat) : str := s ++ spaces (n - length s).

(** The greatest of the entries [i], [i + columns], ... of a list. *)
Fixpoint column_max (fuel columns i : nat) (l : list nat) : nat :=
  match fuel with
  | 0 => 0
  | S fuel' =>
      match nth_error l i with
      | Some x => Nat.max x (column_max fuel' columns (i + columns) l)
      | None => 0
      end
  end.

(** One line of grouped entries; [start] tells [padStart] from [padEnd]. *)
Fixpoint group_line (start : bool) (widths : list nat) (row : list str)
    : str :=
  match row with
  | [] => []
  | x :: row' =>
      match row' with
      | [] => if start then padStart x (hd 0 widths - 2) else x
      | _ :: _ =>
          (if start then padStart (x ++ ", ") (hd 0 widths)
           else padEnd (x ++ ", ") (hd 0 widths))
          ++ group_line start (tl widths) row'
      end
  end.

Fixpoint group_lines (fuel columns : nat) (start : bool)
    (widths : list nat) (entries : list str) : list str :=
  match fuel with
  | 0 => []
  | S fuel' =>
      match entries with
      | [] => []
      | _ :: _ =>
          group_line start widths (firstn columns entries)
          :: group_lines fuel' columns start widths (skipn columns entries)
      end
  end.

Definition groupArrayElements (indentationLvl : nat) (output : list str)
    (value : list value) : list str :=
  let outputLength :=
    if maxArrayLength <? length output then length output - 1
    else length output in
  let entries := firstn outputLength output in
  let dataLen := map (@length ascii) entries in
  let totalLength := fold_left (fun t len => t + (len + 2)) dataLen 0 in
  let maxLength := fold_left Nat.max dataLen 0 in
  let actualMax := maxLength + 2 in
  if (actualMax * 3 + indentationLvl <? breakLength)
     && (PrimFloat.ltb (fl 5) (PrimFloat.div (fl totalLength) (fl actualMax))
         || (maxLength <=? 6)) then
    let approxCharHeights := PrimFloat.div (fl 5) (fl 2) in
    let averageBias :=
      PrimFloat.sqrt
        (PrimFloat.sub (fl actualMax)
           (PrimFloat.div (fl totalLength) (fl (length output)))) in
    let biased := PrimFloat.sub (PrimFloat.sub (fl actualMax) (fl 3))
                    averageBias in
    let biasedMax := if PrimFloat.ltb biased (fl 1) then fl 1 else biased in
    let columns :=
      Nat.min
        (Nat.min
           (round_to_15
              (PrimFloat.div
                 (PrimFloat.sqrt
                    (PrimFloat.mul
                       (PrimFloat.mul approxCharHeights biasedMax)
                       (fl outputLength)))
                 biasedMax))
           ((breakLength - indentationLvl) / actualMax))
        (Nat.min (compact * 4) 15) in
    if columns <=? 1 then output
    else
      let widths :=
        map (fun i => column_max (length dataLen) columns i dataLen + 2)
            (seq 0 columns) in
      let start := forallb is_number (firstn (length output) value) in
      group_lines outputLength columns start widths entries
      ++ skipn outputLength output
  else output.

Definition isBelowBreakLength (output : list str) (start : nat) : bool :=
  let totalLength := length output + start in
  (totalLength + length output <=? breakLength)
  && (fold_left (fun t s => t + length s) output totalLength <=? breakLength).

Definition reduceToSingleString (output : list str) (open close : str)
    (isArray : bool) (recurseTimes indentationLvl currentDepth : nat)
    (value : list value) : str :=
  let entries := length output in
  let output :=
    if isArray && (6 <? entries) then
      groupArrayElements indentationLvl output value
    else output in
  let joined := join ", " output in
  if (currentDepth - recurseTimes <? compact)
     && (entries =? length output)
     && isBelowBreakLength output
          (length output + indentationLvl + length open + 10)
     && negb (includes [newline] joined)
  then open ++ " " ++ joined ++ " " ++ close
  else
    let indentation := newline :: spaces indentationLvl in
    open ++ indentation ++ "  " ++ join ("," ++ indentation ++ "  ") output
    ++ indentation ++ close.

Definition more_items (n : nat) : str :=
  "... " ++ decimal n ++ " more item" ++ plural n.

(** [formatValue]: the text and the depth [ctx.currentDepth] is left at.
    [remaining] counts the levels still to expand, [depth + 1] less
    [recurseTimes]. *)
Fixpoint formatValue (remaining recurseTimes indentationLvl
    currentDepth : nat) (v : value) : str * nat :=
  match v with
  | VArr [] => ("[]" : str, currentDepth)
  | VObj [] => ("{}" : str, currentDepth)
  | VArr elems =>
      match remaining with
      | 0 => ("[Array]" : str, currentDepth)
      | S remaining' =>
          let r := S recurseTimes in
          let '(output, cd) :=
            fold_left
              (fun acc x =>
                 let '(s, cd') :=
                   formatValue remaining' r (indentationLvl + 2) (snd acc) x in
                 (fst acc ++ [s], cd'))
              (firstn maxArrayLength elems) ([], r) in
          let more := length elems - maxArrayLength in
          let output :=
            if 0 <? more then output ++ [more_items more] else output in
          (reduceToSingleString output "[" "]" true r indentationLvl cd
             elems, cd)
      end
  | VObj props =>
      match remaining with
      | 0 => ("[Object]" : str, currentDepth)
      | S remaining' =>
          let r := S recurseTimes in
          let '(output, cd) :=
            fold_left
              (fun acc p =>
                 let '(s, cd') :=
                   formatValue remaining' r (indentationLvl + 2) (snd acc)
                     (snd p) in
                 (fst acc ++ [property_name (fst p) ++ ": " ++ s], cd'))
              props ([], r) in
          (reduceToSingleString output "{" "}" false r indentationLvl cd [],
           cd)
      end
  | _ => (formatPrimitive indentationLvl v, currentDepth)
  end.

(** [util.inspect(v, { depth })] *)
Definition inspect (depth : nat) (v : value) : str :=
  fst (formatValue (S depth) 0 0 0 v).

(** Two values are the same down to [n] levels of nesting: below, only
    that an array or an object is there, and not an empty one, is the
    same. *)
Fixpoint alike (n : nat) (v w : value) : Prop :=
  match v, w with
  | VArr (x :: l), VArr (y :: l') =>
      match n with
      | 0 => True
      | S n' => Forall2 (alike n') (x :: l) (y :: l')
      end
  | VObj (p :: ps), VObj (q :: qs) =>
      match n with
      | 0 => True
      | S n' =>
          Forall2 (fun a b => fst a = fst b /\ alike n' (snd a) (snd b))
                  (p :: ps) (q :: qs)
      end
  | _, _ => v = w
  end.

(** A text given by its lines. *)
Definition lines (l : list str) : str := join [newline] l.

End Node.

(** ** Regular expressions: the fragment of the pattern language that
    [new RegExp(source, 'g')] is given here, its parser and its backtracking
    matcher *)
Module RegExp.
Import JS.

(** SyntaxCharacter of the pattern grammar; every other character is a
    PatternCharacter and stands for itself. *)
Definition syntax_characters : str := "^$\.*+?()[]{}|".

Definition is_syntax (c : ascii) : bool :=
  existsb (Ascii.eqb c) syntax_characters.

(** The atoms of a character class: a character or a class escape
    ([\d \D \s \S \w \W], [neg] for the upper-case one). *)
Inductive class_atom :=
| CChar (c : ascii)
| CDigit (neg : bool)
| CSpace (neg : bool)
| CWord (neg : bool).

Inductive quantifier := QStar | QPlus | QOpt.

Definition q_min (q : quantifier) : nat :=
  match q with QPlus => 1 | _ => 0 end.

Definition q_max (q : quantifier) : option nat :=
  match q with QOpt => Some 1 | _ => None end.

Inductive regex :=
| REmpty
| RChar (c : ascii)
| RDot
| RClass (neg : bool) (atoms : list class_atom)
| RSeq (r1 r2 : regex)
| RAlt (r1 r2 : regex)
| RQuant (q : quantifier) (greedy : bool) (r : regex)
| RGroup (n : nat) (r : regex).

Definition seq_of (terms : list regex) : regex :=
  fold_right RSeq REmpty terms.

Fixpoint alt_of (alts : list regex) : regex :=
  match alts with
  | [] => REmpty
  | r :: rest => match rest with [] => r | _ :: _ => RAlt r (alt_of rest) end
  end.

(** *** Parser: one character at a time, with a stack of open groups *)

(** A disjunction being read: the finished alternatives and the terms of
    the current one, both latest first; [f_group] is the number of the
    capturing group it is the body of. *)
Record frame := {
  f_alts : list regex;
  f_terms : list regex;
  f_group : nat
}.

Inductive mode :=
| InPattern
| InEscape
| InClass (neg fresh : bool) (atoms : list class_atom)
| InClassEscape (neg : bool) (atoms : list class_atom).

Record pstate := {
  p_open : list frame;
  p_frame : frame;
  p_next : nat;
  p_mode : mode
}.

Definition frame_regex (f : frame) : regex :=
  alt_of (rev (seq_of (rev (f_terms f)) :: f_alts f)).

Definition with_terms (st : pstate) (terms : list regex) : pstate :=
  {| p_open := p_open st;
     p_frame := {| f_alts := f_alts (p_frame st); f_terms := terms;
                   f_group := f_group (p_frame st) |};
     p_next := p_next st;
     p_mode := InPattern |}.

Definition with_mode (st : pstate) (m : mode) : pstate :=
  {| p_open := p_open st; p_frame := p_frame st; p_next := p_next st;
     p_mode := m |}.

Definition push_term (r : regex) (st : pstate) : pstate :=
  with_terms st (r :: f_terms (p_frame st)).

(** [*] and [+]: quantify the last term; a term cannot be quantified twice. *)
Definition quantify (q : quantifier) (st : pstate) : option pstate :=
  match f_terms (p_frame st) with
  | [] => None
  | RQuant _ _ _ :: _ => None
  | r :: rs => Some (with_terms st (RQuant q true r :: rs))
  end.

(** [?]: after a greedy quantifier it makes it lazy, otherwise it is the
    optional quantifier. *)
Definition question (st : pstate) : option pstate :=
  match f_terms (p_frame st) with
  | [] => None
  | RQuant q true r :: rs => Some (with_terms st (RQuant q false r :: rs))
  | RQuant _ false _ :: _ => None
  | r :: rs => Some (with_terms st (RQuant QOpt true r :: rs))
  end.

Definition open_group (st : pstate) : pstate :=
  {| p_open := p_frame st :: p_open st;
     p_frame := {| f_alts := []; f_terms := []; f_group := p_next st |};
     p_next := S (p_next st);
     p_mode := InPattern |}.

Definition close_group (st : pstate) : option pstate :=
  match p_open st with
  | [] => None
  | f :: fs =>
      Some {| p_open := fs;
              p_frame := {| f_alts := f_alts f;
                            f_terms := RGroup (f_group (p_frame st))
                                              (frame_regex (p_frame st))
                                       :: f_terms f;
                            f_group := f_group f |};
              p_next := p_next st;
              p_mode := InPattern |}
  end.

Definition next_alternative (st : pstate) : pstate :=
  {| p_open := p_open st;
     p_frame := {| f_alts := seq_of (rev (f_terms (p_frame st)))
                             :: f_alts (p_frame st);
                   f_terms := [];
                   f_group := f_group (p_frame st) |};
     p_next := p_next st;
     p_mode := InPattern |}.

(** Outside a class.  Assertions ([^], [$]) and braces are outside the
    fragment: the parser gives no result for them. *)
Definition step_pattern (st : pstate) (c : ascii) : option pstate :=
  if negb (is_syntax c) then Some (push_term (RChar c) st)
  else match c with
       | "\"%char => Some (with_mode st InEscape)
       | "."%char => Some (push_term RDot st)
       | "*"%char => quantify QStar st
       | "+"%char => quantify QPlus st
       | "?"%char => question st
       | "("%char => Some (open_group st)
       | ")"%char => close_group st
       | "|"%char => Some (next_alternative st)
       | "["%char => Some (with_mode st (InClass false true []))
       | _ => None
       end.

Definition class_escape (c : ascii) : option class_atom :=
  if is_syntax c then Some (CChar c)
  else match c with
       | "d"%char => Some (CDigit false)
       | "D"%char => Some (CDigit true)
       | "s"%char => Some (CSpace false)
       | "S"%char => Some (CSpace true)
       | "w"%char => Some (CWord false)
       | "W"%char => Some (CWord true)
       | "n"%char => Some (CChar "010")
       | "r"%char => Some (CChar "013")
       | "t"%char => Some (CChar "009")
       | "f"%char => Some (CChar "012")
       | "v"%char => Some (CChar "011")
       | "-"%char => Some (CChar "-")
       | "/"%char => Some (CChar "/")
       | _ => None
       end.

(** AtomEscape: the identity escape of a syntax character, a class escape
    or a control escape. *)
Definition escape_atom (c : ascii) : option regex :=
  match c with
  | "-"%char => None
  | _ =>
      match class_escape c with
      | Some (CChar x) => Some (RChar x)
      | Some a => Some (RClass false [a])
      | None => None
      end
  end.

(** Inside a class; ranges are outside the fragment. *)
Definition step_class (st : pstate) (neg fresh : bool)
    (atoms : list class_atom) (c : ascii) : option pstate :=
  match c with
  | "]"%char => Some (push_term (RClass neg (rev atoms)) st)
  | "\"%char => Some (with_mode st (InClassEscape neg atoms))
  | "-"%char => None
  | "^"%char =>
      if fresh then Some (with_mode st (InClass true false atoms))
      else Some (with_mode st (InClass neg false (CChar c :: atoms)))
  | _ => Some (with_mode st (InClass neg false (CChar c :: atoms)))
  end.

Definition step (st : pstate) (c : ascii) : option pstate :=
  match p_mode st with
  | InPattern => step_pattern st c
  | InEscape =>
      match escape_atom c with
      | Some r => Some (push_term r st)
      | None => None
      end
  | InClass neg fresh atoms => step_class st neg fresh atoms c
  | InClassEscape neg atoms =>
      match class_escape c with
      | Some a => Some (with_mode st (InClass neg false (a :: atoms)))
      | None => None
      end
  end.

Definition finish (st : pstate) : option regex :=
  match p_mode st, p_open st with
  | InPattern, [] => Some (frame_regex (p_frame st))
  | _, _ => None
  end.

Fixpoint parse_from (st : pstate) (s : str) : option regex :=
  match s with
  | [] => finish st
  | c :: s' =>
      match step st c with
      | Some st' => parse_from st' s'
      | None => None
      end
  end.

(** The state between two terms. *)
Definition pattern_state (o : list frame) (a t : list regex) (g n : nat)
    : pstate :=
  {| p_open := o;
     p_frame := {| f_alts := a; f_terms := t; f_group := g |};
     p_next := n;
     p_mode := InPattern |}.

Definition initial : pstate := pattern_state [] [] [] 0 1.

(** [new RegExp(source, 'g')]; [None] is a SyntaxError (or a pattern outside
    the fragment). *)
Definition new_RegExp (source : str) : option regex :=
  parse_from initial source.

(** *** Matcher: all the ways a pattern matches at the head of the input,
    in the order backtracking tries them *)

Definition captures := list (nat * str).

Definition capture (n : nat) (caps : captures) : option str :=
  match find (fun p => Nat.eqb (fst p) n) caps with
  | Some p => Some (snd p)
  | None => None
  end.

Definition atom_matches (a : class_atom) (c : ascii) : bool :=
  match a with
  | CChar x => Ascii.eqb x c
  | CDigit neg => xorb neg (is_digit c)
  | CSpace neg => xorb neg (is_space c)
  | CWord neg => xorb neg (is_word c)
  end.

Definition class_matches (neg : bool) (atoms : list class_atom)
    (c : ascii) : bool :=
  xorb neg (existsb (fun a => atom_matches a c) atoms).

Definition is_line_terminator (c : ascii) : bool :=
  Ascii.eqb c "010" || Ascii.eqb c "013".

Fixpoint groups_in (r : regex) : list nat :=
  match r with
  | RSeq r1 r2 | RAlt r1 r2 => groups_in r1 ++ groups_in r2
  | RQuant _ _ r' => groups_in r'
  | RGroup n r' => n :: groups_in r'
  | _ => []
  end.

Definition clear_groups (gs : list nat) (caps : captures) : captures :=
  filter (fun p => negb (existsb (Nat.eqb (fst p)) gs)) caps.

Definition one_char (ok : ascii -> bool) (caps : captures) (s : str)
    : list (captures * str) :=
  match s with
  | x :: s' => if ok x then [(caps, s')] else []
  | [] => []
  end.

(** RepeatMatcher: [m] is the matcher of the quantified atom and [gs] its
    groups, cleared before each iteration.  An iteration that is not
    required and consumes nothing is rejected, so [min] plus the input
    length bounds the number of iterations; [fuel] counts them. *)
Fixpoint repeat_matcher (m : captures -> str -> list (captures * str))
    (gs : list nat) (fuel min : nat) (max : option nat) (greedy : bool)
    (caps : captures) (s : str) : list (captures * str) :=
  match max, fuel with
  | Some 0, _ => [(caps, s)]
  | _, 0 => []
  | _, S fuel' =>
      let again :=
        flat_map
          (fun y =>
             if (min =? 0) && (length (snd y) =? length s) then []
             else repeat_matcher m gs fuel' (pred min) (option_map pred max)
                    greedy (fst y) (snd y))
          (m (clear_groups gs caps) s) in
      if negb (min =? 0) then again
      else if greedy then again ++ [(caps, s)]
      else (caps, s) :: again
  end.

Fixpoint run (r : regex) (caps : captures) (s : str)
    : list (captures * str) :=
  match r with
  | REmpty => [(caps, s)]
  | RChar c => one_char (Ascii.eqb c) caps s
  | RDot => one_char (fun x => negb (is_line_terminator x)) caps s
  | RClass neg atoms => one_char (class_matches neg atoms) caps s
  | RSeq r1 r2 => flat_map (fun y => run r2 (fst y) (snd y)) (run r1 caps s)
  | RAlt r1 r2 => run r1 caps s ++ run r2 caps s
  | RQuant q greedy r' =>
      repeat_matcher (run r') (groups_in r') (S (q_min q + length s))
        (q_min q) (q_max q) greedy caps s
  | RGroup n r' =>
      map (fun y => ((n, firstn (length s - length (snd y)) s) :: fst y,
                     snd y))
          (run r' caps s)
  end.

(** The input and what is left of it after one character, two, ... *)
Fixpoint suffixes (s : str) : list str :=
  match s with
  | [] => [[]]
  | _ :: s' => s :: suffixes s'
  end.

(** A successful match: the text skipped before it (from the position the
    search started at), the matched text, the captures and what follows. *)
Record match_result := {
  m_before : str;
  m_text : str;
  m_caps : captures;
  m_after : str
}.

(** RegExpBuiltinExec of a global, non-sticky expression: try the current
    position, then the next one, to the end of the input.  [skipped] is the
    text passed over, reversed. *)
Fixpoint exec_from (r : regex) (skipped : str) (s : str)
    : option match_result :=
  match run r [] s with
  | (caps, rest) :: _ =>
      Some {| m_before := rev skipped;
              m_text := firstn (length s - length rest) s;
              m_caps := caps;
              m_after := rest |}
  | [] =>
      match s with
      | c :: s' => exec_from r (c :: skipped) s'
      | [] => None
      end
  end.

(** The loop of RegExp.prototype[Symbol.replace] that collects the matches
    of a global expression: each search starts where the previous match
    ended, one character further after an empty match.  It returns the
    matches and the text after the last one. *)
Fixpoint match_all_from (fuel : nat) (r : regex) (skipped : str) (s : str)
    : list match_result * str :=
  match fuel with
  | 0 => ([], rev skipped ++ s)
  | S fuel' =>
      match exec_from r skipped s with
      | None => ([], rev skipped ++ s)
      | Some m =>
          match m_text m, m_after m with
          | [], [] => ([m], [])
          | [], c :: rest =>
              let (ms, tl) := match_all_from fuel' r [c] rest in (m :: ms, tl)
          | _ :: _, rest =>
              let (ms, tl) := match_all_from fuel' r [] rest in (m :: ms, tl)
          end
      end
  end.

Definition match_all (r : regex) (s : str) : list match_result * str :=
  match_all_from (S (length s)) r [] s.

End RegExp.

(** ** The imported collaborators: [getProperty] of dot-prop and
    [util.inspect] of Node *)
Class Host := {
  (** the walk of [getProperty]: the value a dotted path leads to in a
      container, [undefined] when it leads to none *)
  resolvePath : JS.value -> str -> JS.value;
  (** [util.inspect(v, { depth })] on an array or an object *)
  inspectObject : nat -> JS.value -> str
}.

(** ** A dotted-path getter *)
Module DotProp.
Import JS.

Fixpoint str_eqb (a b : str) : bool :=
  match a, b with
  | [], [] => true
  | x :: a', y :: b' => Ascii.eqb x y && str_eqb a' b'
  | _, _ => false
  end.

(** The segments of a path: the texts between its dots. *)
Fixpoint segments_from (cur : str) (path : str) : list str :=
  match path with
  | [] => [rev cur]
  | c :: rest =>
      if Ascii.eqb c "." then rev cur :: segments_from [] rest
      else segments_from (c :: cur) rest
  end.

Definition segments (path : str) : list str := segments_from [] path.

Fixpoint own_property (k : str) (props : list (str * value)) : value :=
  match props with
  | [] => VUndefined
  | (k', v) :: rest => if str_eqb k k' then v else own_property k rest
  end.

(** A segment made of decimal digits, as an array index. *)
Fixpoint index_from (acc : nat) (k : str) : option nat :=
  match k with
  | [] => Some acc
  | c :: k' =>
      if is_digit c then index_from (10 * acc + (nat_of_ascii c - 48)) k'
      else None
  end.

Definition array_index (k : str) : option nat :=
  match k with
  | [] => None
  | _ :: _ => index_from 0 k
  end.

(** [object[key]] on the values of the model. *)
Definition member (object : value) (k : str) : value :=
  match object with
  | VObj props => own_property k props
  | VArr elems =>
      match array_index k with
      | Some i => nth i elems VUndefined
      | None => VUndefined
      end
  | _ => VUndefined
  end.

Fixpoint walk (object : value) (path : list str) : value :=
  match path with
  | [] => object
  | k :: rest => walk (member object k) rest
  end.

(** Modelled from the spec: the dotted-path lookup of the npm package
    dot-prop, which is imported by src/index.js and is not part of the
    repository: it resolves a dotted path against a nested structure, one
    segment per level. *)
Definition resolve (object : value) (path : str) : value :=
  walk object (segments path).

End DotProp.

(** ** The Templatar class *)
Module Templatar.
Import JS RegExp.

(** The errors [replace] throws, named as the specification names them;
    [EngineError] stands for an exception of the runtime (a pattern that
    does not compile, a capture that is missing). *)
Inductive error :=
| InvalidTemplateType
| InvalidDataType
| MissingKey (trimmedKey : str)
| EngineError.

Definition quote : ascii := "034".

(** The text of the thrown [Error]. *)
Definition message (e : error) : str :=
  match e with
  | InvalidTemplateType => "Template must be a string"
  | InvalidDataType => "Data must be an object"
  | MissingKey k =>
      "Key " ++ [quote] ++ k ++ [quote]
      ++ " is not found and ignoreMissing is false"
  | EngineError => "Error"
  end.

(** The object handed to the [transform] hook. *)
Record hook_arg := {
  value : str;
  defaultVal : option str;
  key : str
}.

Record delimiters_option := {
  opt_starting : option str;
  opt_closing : option str
}.

Record options := {
  opt_delimiters : option delimiters_option;
  opt_ignoreMissing : option bool;
  opt_transform : option (hook_arg -> JS.value)
}.

Record t := {
  starting : str;
  closing : str;
  ignoreMissing : bool;
  transform : hook_arg -> JS.value
}.

(** [x || d] on an optional string: the empty string is falsy. *)
Definition or_str (x : option str) (d : str) : str :=
  match x with
  | Some [] | None => d
  | Some s => s
  end.

Definition constructor (o : options) : t :=
  {| starting :=
       or_str (match opt_delimiters o with
               | Some d => opt_starting d
               | None => None
               end) "<{";
     closing :=
       or_str (match opt_delimiters o with
               | Some d => opt_closing d
               | None => None
               end) "}>";
     ignoreMissing :=
       match opt_ignoreMissing o with Some b => b | None => false end;
     transform :=
       match opt_transform o with
       | Some f => f
       | None => fun data => VStr (value data)
       end |}.

Definition no_options : options :=
  {| opt_delimiters := None; opt_ignoreMissing := None;
     opt_transform := None |}.

(** The characters of the class [[.*+?^${}()|[\]\\]]. *)
Definition escaped_characters : str := ".*+?^${}()|[]\".

(** [s.replace(/[.*+?^${}()|[\]\\]/g, '\\$&')] *)
Definition escapeRegExp (s : str) : str :=
  flat_map
    (fun c =>
       if existsb (Ascii.eqb c) escaped_characters then ["\"%char; c]
       else [c])
    s.

Definition pattern_source (starting closing : str) : str :=
  escapeRegExp starting ++ "([\w\W]+?)" ++ escapeRegExp closing.

(** The character class [[\w\W]]. *)
Definition any_char : regex := RClass false [CWord false; CWord true].

(** The group [([\w\W]+?)]. *)
Definition key_group : regex :=
  RGroup 1 (RSeq (RQuant QPlus false any_char) REmpty).

(** The expression the pattern source stands for: the characters of the
    starting delimiter, the group, the characters of the closing one. *)
Definition compiled (starting closing : str) : regex :=
  seq_of (map RChar starting ++ key_group :: map RChar closing).

Definition of_default (d : option str) : JS.value :=
  match d with
  | Some s => VStr s
  | None => VUndefined
  end.

(** The string a value of type string holds. *)
Definition as_string (v : JS.value) : str :=
  match v with
  | VStr s => s
  | _ => []
  end.

(** What a call of [replace] does: the arguments the [transform] hook was
    called with, in order, and the exception thrown or the string
    returned. *)
Record outcome := {
  calls : list hook_arg;
  result : error + str
}.

Definition throw (e : error) : outcome :=
  {| calls := []; result := inl e |}.

Section WithHost.
Context {host : Host}.

(** [getProperty(object, path, fallback)]: the value at the path, the
    fallback when there is none. *)
Definition getProperty (object : JS.value) (path : str)
    (fallback : JS.value) : JS.value :=
  match resolvePath object path with
  | VUndefined => fallback
  | v => v
  end.

(** [util.inspect(v, { depth })] where [typeof v] is ['object']. *)
Definition inspect (depth : nat) (v : JS.value) : str :=
  match v with
  | VNull => "null"
  | _ => inspectObject depth v
  end.

(** Lines 49-56: the value handed to the hook. *)
Definition normalize (v : JS.value) : str :=
  if tag_eqb (typeof v) TObject then inspect 4 v
  else if negb (tag_eqb (typeof v) TString) then ToString v
  else as_string v.

(** The replacer callback of lines 35-59 on the captured key expression:
    the error thrown, or the hook's argument with the replacement text. *)
Definition replacer (self : t) (data : JS.value) (keyStr : str)
    : error + (hook_arg * str) :=
  let parts := split_bars keyStr in
  let key := nth 0 parts [] in
  let defaultVal := nth_error parts 1 in
  let trimmedKey := trim key in
  let v := getProperty data trimmedKey (of_default defaultVal) in
  if is_undefined v && negb (ignoreMissing self) then
    inl (MissingKey trimmedKey)
  else
    let arg := {| value := normalize v; defaultVal := defaultVal;
                  key := trimmedKey |} in
    inr (arg, ToString (transform self arg)).

Definition on_match (self : t) (data : JS.value) (m : RegExp.match_result)
    : error + (hook_arg * str) :=
  match RegExp.capture 1 (RegExp.m_caps m) with
  | Some keyStr => replacer self data keyStr
  | None => inl EngineError
  end.

(** [String.prototype.replace] with a replacer function: the callback runs
    on the matches in order, the first exception ends the call; otherwise
    the replacements are spliced between the texts the matches left. *)
Fixpoint substitute (self : t) (data : JS.value)
    (ms : list RegExp.match_result) (tail : str) : outcome :=
  match ms with
  | [] => {| calls := []; result := inr tail |}
  | m :: ms' =>
      match on_match self data m with
      | inl e => throw e
      | inr (arg, text) =>
          let o := substitute self data ms' tail in
          {| calls := arg :: calls o;
             result := match result o with
                       | inl e => inl e
                       | inr out => inr (RegExp.m_before m ++ text ++ out)
                       end |}
      end
  end.

Definition replace (self : t) (template data : JS.value) : outcome :=
  if negb (tag_eqb (typeof template) TString) then throw InvalidTemplateType
  else if negb (tag_eqb (typeof data) TObject) || is_null data then
    throw InvalidDataType
  else
    match RegExp.new_RegExp (pattern_source (starting self) (closing self)) with
    | None => throw EngineError
    | Some pattern =>
        let (ms, tail) := RegExp.match_all pattern (as_string template) in
        substitute self data ms tail
    end.

(** The key and the default expression the callback reads in a key
    expression, and the argument the hook is called with. *)
Definition key_of (keyStr : str) : str :=
  trim (nth 0 (split_bars keyStr) []).

Definition default_of (keyStr : str) : option str :=
  nth_error (split_bars keyStr) 1.

Definition resolved_value (data : JS.value) (keyStr : str) : JS.value :=
  getProperty data (key_of keyStr) (of_default (default_of keyStr)).

Definition hook_input (data : JS.value) (keyStr : str) : hook_arg :=
  {| value := normalize (resolved_value data keyStr);
     defaultVal := default_of keyStr;
     key := key_of keyStr |}.

(** The key does not resolve in the data and there is no default. *)
Definition unresolved (data : JS.value) (keyStr : str) : bool :=
  is_undefined (resolvePath data (key_of keyStr))
  && match default_of keyStr with Some _ => false | None => true end.

(** The condition of line 43 on a key expression. *)
Definition fails (self : t) (data : JS.value) (keyStr : str) : bool :=
  unresolved data keyStr && negb (ignoreMissing self).

End WithHost.

(** The placeholder spans [replace] finds in a template, and their key
    expressions (the first capture). *)
Definition placeholders (self : t) (template : str)
    : list RegExp.match_result :=
  match new_RegExp (pattern_source (starting self) (closing self)) with
  | Some pattern => fst (match_all pattern template)
  | None => []
  end.

Definition keyStr_of (m : RegExp.match_result) : str :=
  match capture 1 (m_caps m) with
  | Some keyStr => keyStr
  | None => []
  end.

Definition key_expressions (self : t) (template : str) : list str :=
  map keyStr_of (placeholders self template).

(** The text the hook gives for a match. *)
Definition replacement {host : Host} (self : t) (data : JS.value)
    (m : RegExp.match_result) : str :=
  ToString (transform self (hook_input data (keyStr_of m))).

(** A match whose only capture is a key expression of at least one
    character. *)
Definition keyed (m : RegExp.match_result) : Prop :=
  exists inner, inner <> [] /\ m_caps m = [(1, inner)].

(** An array or an object. *)
Definition is_structured (v : JS.value) : bool :=
  match v with
  | VArr _ | VObj _ => true
  | _ => false
  end.

(** The text left after the last placeholder. *)
Definition remainder (self : t) (template : str) : str :=
  match new_RegExp (pattern_source (starting self) (closing self)) with
  | Some pattern => snd (match_all pattern template)
  | None => template
  end.

(** [data] passes the check of line 26. *)
Definition is_object (data : JS.value) : bool :=
  tag_eqb (typeof data) TObject && negb (is_null data).

(** A text in pieces: before each match the text the scan skipped, for
    the match what [f] gives, at the end a tail. *)
Fixpoint spliced (f : RegExp.match_result -> str)
    (ms : list RegExp.match_result) (tail : str) : str :=
  match ms with
  | [] => tail
  | m :: ms' => m_before m ++ f m ++ spliced f ms' tail
  end.

(** The first of the skipped texts: the one before the first match, the
    tail when there is no match. *)
Definition first_gap (ms : list RegExp.match_result) (tail : str) : str :=
  match ms with
  | [] => tail
  | m :: _ => m_before m
  end.

(** The text in pieces with [g] in the place of the first skipped text. *)
Definition spliced_from (f : RegExp.match_result -> str) (g : str)
    (ms : list RegExp.match_result) (tail : str) : str :=
  match ms with
  | [] => g
  | m :: ms' => g ++ f m ++ spliced f ms' tail
  end.

End Templatar.

(** ** The second listing of src/index.js (lines 73-116): the class as it
    is without the normalization of lines 49-56, where the hook is handed
    the resolved value itself *)
Module Templatar0.
Import JS RegExp.

Record hook_arg := {
  value : JS.value;
  defaultVal : option str;
  key : str
}.

Record options := {
  opt_delimiters : option Templatar.delimiters_option;
  opt_ignoreMissing : option bool;
  opt_transform : option (hook_arg -> JS.value)
}.

Record t := {
  starting : str;
  closing : str;
  ignoreMissing : bool;
  transform : hook_arg -> JS.value
}.

Definition constructor (o : options) : t :=
  {| starting :=
       Templatar.or_str (match opt_delimiters o with
                         | Some d => Templatar.opt_starting d
                         | None => None
                         end) "<{";
     closing :=
       Templatar.or_str (match opt_delimiters o with
                         | Some d => Templatar.opt_closing d
                         | None => None
                         end) "}>";
     ignoreMissing :=
       match opt_ignoreMissing o with Some b => b | None => false end;
     transform :=
       match opt_transform o with
       | Some f => f
       | None => fun data => value data
       end |}.

Record outcome := {
  calls : list hook_arg;
  result : Templatar.error + str
}.

Definition throw (e : Templatar.error) : outcome :=
  {| calls := []; result := inl e |}.

Section WithHost.
Context {host : Host}.

(** The replacer callback of lines 97-114. *)
Definition replacer (self : t) (data : JS.value) (keyStr : str)
    : Templatar.error + (hook_arg * str) :=
  let parts := split_bars keyStr in
  let key := nth 0 parts [] in
  let defaultVal := nth_error parts 1 in
  let trimmedKey := trim key in
  let v := Templatar.getProperty data trimmedKey
             (Templatar.of_default defaultVal) in
  if is_undefined v && negb (ignoreMissing self) then
    inl (Templatar.MissingKey trimmedKey)
  else
    let arg := {| value := v; defaultVal := defaultVal;
                  key := trimmedKey |} in
    inr (arg, ToString (transform self arg)).

Definition on_match (self : t) (data : JS.value) (m : RegExp.match_result)
    : Templatar.error + (hook_arg * str) :=
  match RegExp.capture 1 (RegExp.m_caps m) with
  | Some keyStr => replacer self data keyStr
  | None => inl Templatar.EngineError
  end.

Fixpoint substitute (self : t) (data : JS.value)
    (ms : list RegExp.match_result) (tail : str) : outcome :=
  match ms with
  | [] => {| calls := []; result := inr tail |}
  | m :: ms' =>
      match on_match self data m with
      | inl e => throw e
      | inr (arg, text) =>
          let o := substitute self data ms' tail in
          {| calls := arg :: calls o;
             result := match result o with
                       | inl e => inl e
                       | inr out => inr (RegExp.m_before m ++ text ++ out)
                       end |}
      end
  end.

Definition replace (self : t) (template data : JS.value) : outcome :=
  if negb (tag_eqb (typeof template) TString) then
    throw Templatar.InvalidTemplateType
  else if negb (tag_eqb (typeof data) TObject) || is_null data then
    throw Templatar.InvalidDataType
  else
    match RegExp.new_RegExp
            (Templatar.pattern_source (starting self) (closing self)) with
    | None => throw Templatar.EngineError
    | Some pattern =>
        let (ms, tail) :=
          RegExp.match_all pattern (Templatar.as_string template) in
        substitute self data ms tail
    end.

End WithHost.

End Templatar0.

(** The engine on the dotted-path getter, for any rendering of objects. *)
Definition dotted (inspectObject : nat -> JS.value -> str) : Host :=
  {| resolvePath := DotProp.resolve; inspectObject := inspectObject |}.

(** The host of the closed examples below: the dotted-path getter and
    Node's [util.inspect]. *)
Definition example_host : Host := dotted Node.inspect.

(** [new Templatar()] *)
Definition defaults : Templatar.t := Templatar.constructor Templatar.no_options.

(** [new Templatar({ ignoreMissing: true })] *)
Definition lenient : Templatar.t :=
  Templatar.constructor
    {| Templatar.opt_delimiters := None;
       Templatar.opt_ignoreMissing := Some true;
       Templatar.opt_transform := None |}.

(** ** What the specification says, in its own words *)
Module Spec.
Import JS.

(** The nearest literal occurrence of the closing delimiter: the inner text
    read so far is [inner], reversed. *)
Fixpoint find_close (closing : str) (inner : str) (s : str)
    : option (str * str) :=
  match strip_prefix closing s with
  | Some rest => Some (rev inner, rest)
  | None =>
      match s with
      | c :: s' => find_close closing (c :: inner) s'
      | [] => None
      end
  end.

(** A span at the head of [s]: the starting delimiter occurs literally,
    then comes inner text of at least one character, then a literal
    occurrence of the closing delimiter.  The result is the inner text and
    what follows the span. *)
Definition literal_span (starting closing : str) (s : str)
    : option (str * str) :=
  match strip_prefix starting s with
  | Some (c :: s') => find_close closing [c] s'
  | _ => None
  end.

(** The leftmost span of the input, searched from its head: the text passed
    over (kept reversed in [skipped]), the inner text and what follows. *)
Fixpoint first_span (starting closing : str) (skipped : str) (s : str)
    : option (str * str * str) :=
  match literal_span starting closing s with
  | Some (inner, rest) => Some (rev skipped, inner, rest)
  | None =>
      match s with
      | c :: s' => first_span starting closing (c :: skipped) s'
      | [] => None
      end
  end.

(** The match a span stands for. *)
Definition span_match (starting closing : str) (sp : str * str * str)
    : RegExp.match_result :=
  let '(before, inner, rest) := sp in
  {| RegExp.m_before := before;
     RegExp.m_text := starting ++ inner ++ closing;
     RegExp.m_caps := [(1, inner)];
     RegExp.m_after := rest |}.

(** "Find the first occurrence of [||]": the text before it and the
    remainder after it, unsplit. *)
Fixpoint cut_bars (s : str) : option (str * str) :=
  match s with
  | [] => None
  | c :: rest =>
      match rest with
      | c' :: rest' =>
          if is_bars c c' then Some ([], rest')
          else match cut_bars rest with
               | Some (a, b) => Some (c :: a, b)
               | None => None
               end
      | [] => None
      end
  end.

(** A span of the compiled pattern: inner text of at least one character
    between the delimiters. *)
Definition is_span (starting closing : str) (m : RegExp.match_result)
    : Prop :=
  exists before inner rest,
    inner <> [] /\ m = span_match starting closing (before, inner, rest).

End Spec.

(** ** Facts about the regular expression engine *)
Module RegExpFacts.
Import JS RegExp Templatar.

Lemma escaped_is_syntax (c : ascii) :
  existsb (Ascii.eqb c) escaped_characters = is_syntax c.
Proof.
  destruct c as [[] [] [] [] [] [] [] []]; reflexivity.
Qed.

Lemma escape_atom_syntax (c : ascii) :
  is_syntax c = true -> escape_atom c = Some (RChar c).
Proof.
  destruct c as [[] [] [] [] [] [] [] []]; intros H;
    try reflexivity; discriminate H.
Qed.

Lemma parse_escaped_char o a t g n (c : ascii) (rest : str) :
  parse_from (pattern_state o a t g n) (escapeRegExp [c] ++ rest)
  = parse_from (pattern_state o a (RChar c :: t) g n) rest.
Proof.
  unfold escapeRegExp. cbn [flat_map]. rewrite escaped_is_syntax.
  destruct (is_syntax c) eqn:E.
  - simpl app. cbn [parse_from]. unfold step at 1. cbn [p_mode pattern_state].
    unfold step_pattern. change (is_syntax "\") with true. cbn [negb].
    unfold step. cbn [with_mode p_mode]. rewrite (escape_atom_syntax c E).
    reflexivity.
  - simpl app. cbn [parse_from]. unfold step. cbn [p_mode pattern_state].
    unfold step_pattern. rewrite E. reflexivity.
Qed.

Lemma escapeRegExp_cons (c : ascii) (s : str) :
  escapeRegExp (c :: s) = escapeRegExp [c] ++ escapeRegExp s.
Proof.
  unfold escapeRegExp. simpl. now rewrite app_nil_r.
Qed.

Lemma parse_escaped (s : str) : forall o a t g n (rest : str),
  parse_from (pattern_state o a t g n) (escapeRegExp s ++ rest)
  = parse_from (pattern_state o a (rev (map RChar s) ++ t) g n) rest.
Proof.
  induction s as [|c s IH]; intros o a t g n rest.
  - reflexivity.
  - rewrite escapeRegExp_cons, <- app_assoc, parse_escaped_char, IH.
    simpl. now rewrite <- app_assoc.
Qed.

Lemma parse_key_group o a t g n (rest : str) :
  parse_from (pattern_state o a t g n) ("([\w\W]+?)" ++ rest)
  = parse_from (pattern_state o a (RGroup n (RSeq (RQuant QPlus false any_char) REmpty) :: t) g (S n)) rest.
Proof. reflexivity. Qed.

Lemma new_RegExp_pattern (starting closing : str) :
  new_RegExp (pattern_source starting closing)
  = Some (compiled starting closing).
Proof.
  unfold new_RegExp, pattern_source.
  change initial with (pattern_state [] [] [] 0 1).
  rewrite parse_escaped, parse_key_group.
  rewrite <- (app_nil_r (escapeRegExp closing)), parse_escaped.
  cbn [parse_from finish pattern_state p_mode p_open p_frame].
  unfold frame_regex. cbn [f_terms f_alts rev app alt_of].
  unfold compiled, key_group. f_equal. f_equal.
  rewrite app_nil_r, rev_app_distr, rev_involutive. cbn [rev app].
  rewrite rev_involutive, <- app_assoc. reflexivity.
Qed.

Lemma strip_prefix_app (p : str) : forall s rest,
  strip_prefix p s = Some rest -> s = p ++ rest.
Proof.
  induction p as [|a p IH]; intros s rest H; simpl in H.
  - now inversion H.
  - destruct s as [|b s]; [discriminate|].
    destruct (Ascii.eqb a b) eqn:E; [|discriminate].
    apply Ascii.eqb_eq in E. subst b. simpl. f_equal. now apply IH.
Qed.

Lemma strip_prefix_same (p rest : str) : strip_prefix p (p ++ rest) = Some rest.
Proof.
  induction p as [|a p IH]; simpl; [reflexivity|].
  now rewrite Ascii.eqb_refl.
Qed.

Lemma run_chars (p : str) (rs : list regex) : forall caps s,
  run (seq_of (map RChar p ++ rs)) caps s
  = match strip_prefix p s with
    | Some rest => run (seq_of rs) caps rest
    | None => []
    end.
Proof.
  induction p as [|a p IH]; intros caps s; [reflexivity|].
  cbn [map app seq_of fold_right run strip_prefix].
  destruct s as [|b s]; [reflexivity|]. cbn [one_char].
  destruct (Ascii.eqb a b); [|reflexivity].
  cbn [flat_map fst snd]. rewrite app_nil_r. apply IH.
Qed.

Lemma any_char_matches (c : ascii) :
  class_matches false [CWord false; CWord true] c = true.
Proof.
  unfold class_matches. simpl. now destruct (is_word c).
Qed.

Lemma clear_no_groups (caps : captures) : clear_groups [] caps = caps.
Proof.
  unfold clear_groups. induction caps as [|p caps IH]; [reflexivity|].
  cbn [filter existsb negb]. f_equal. exact IH.
Qed.

Lemma lazy_star_any (caps : captures) : forall s fuel,
  length s < fuel ->
  repeat_matcher (run any_char) [] fuel 0 None false caps s
  = map (pair caps) (suffixes s).
Proof.
  induction s as [|c s IH]; intros fuel Hf;
    (destruct fuel as [|fuel]; [lia|]).
  - reflexivity.
  - cbn [repeat_matcher Nat.eqb negb andb]. rewrite clear_no_groups.
    cbn [run any_char one_char]. rewrite any_char_matches.
    cbn [flat_map fst snd length pred option_map].
    replace (length s =? S (length s)) with false
      by (symmetry; apply Nat.eqb_neq; lia).
    rewrite app_nil_r, IH by (simpl in Hf; lia). reflexivity.
Qed.

Lemma run_lazy_plus (caps : captures) (s : str) :
  run (RQuant QPlus false any_char) caps s
  = match s with
    | [] => []
    | _ :: s' => map (pair caps) (suffixes s')
    end.
Proof.
  cbn [run q_min q_max groups_in any_char].
  cbn [repeat_matcher Nat.eqb negb andb]. rewrite clear_no_groups.
  destruct s as [|c s]; [reflexivity|].
  cbn [run one_char]. rewrite any_char_matches.
  cbn [flat_map fst snd pred option_map Nat.eqb andb].
  rewrite app_nil_r. apply lazy_star_any. simpl. lia.
Qed.

Lemma run_seq (r1 r2 : regex) (caps : captures) (s : str) :
  run (RSeq r1 r2) caps s
  = flat_map (fun y => run r2 (fst y) (snd y)) (run r1 caps s).
Proof. reflexivity. Qed.

Lemma run_group (n : nat) (r : regex) (caps : captures) (s : str) :
  run (RGroup n r) caps s
  = map (fun y => ((n, firstn (length s - length (snd y)) s) :: fst y, snd y))
      (run r caps s).
Proof. reflexivity. Qed.

Lemma run_key_group (caps : captures) (s : str) :
  run key_group caps s
  = match s with
    | [] => []
    | _ :: s' =>
        map (fun t => ((1, firstn (length s - length t) s) :: caps, t))
            (suffixes s')
    end.
Proof.
  unfold key_group. rewrite run_group, run_seq, run_lazy_plus.
  destruct s as [|c s]; [reflexivity|].
  generalize (c :: s) as whole. intros whole.
  induction (suffixes s) as [|t ts IH]; [reflexivity|].
  cbn [map flat_map fst snd app run] in *. now rewrite IH.
Qed.

Lemma run_closing (closing : str) (caps : captures) (s : str) :
  run (seq_of (map RChar closing)) caps s
  = match strip_prefix closing s with
    | Some rest => [(caps, rest)]
    | None => []
    end.
Proof.
  rewrite <- (app_nil_r (map RChar closing)). apply run_chars.
Qed.

Lemma close_scan (closing : str) (caps : captures) : forall s pre,
  hd_error
    (flat_map
       (fun y => run (seq_of (map RChar closing)) (fst y) (snd y))
       (map (fun t => ((1, firstn (length (pre ++ s) - length t) (pre ++ s))
                         :: caps, t))
            (suffixes s)))
  = option_map (fun ir => ((1, fst ir) :: caps, snd ir))
      (Spec.find_close closing (rev pre) s).
Proof.
  assert (Hpre : forall pre s : str,
             firstn (length (pre ++ s) - length s) (pre ++ s) = pre).
  { intros pre s. rewrite length_app.
    replace (length pre + length s - length s) with (length pre + 0) by lia.
    rewrite firstn_app_2. simpl. apply app_nil_r. }
  induction s as [|c s IH]; intros pre.
  - cbn [suffixes map flat_map fst snd Spec.find_close].
    rewrite run_closing, Hpre.
    destruct (strip_prefix closing []); simpl; now rewrite ?rev_involutive.
  - cbn [suffixes map flat_map fst snd Spec.find_close].
    rewrite run_closing, Hpre.
    destruct (strip_prefix closing (c :: s)) as [rest|].
    + simpl. now rewrite rev_involutive.
    + cbn [app]. specialize (IH (pre ++ [c])).
      rewrite <- app_assoc in IH. cbn [app] in IH.
      rewrite IH, rev_app_distr. reflexivity.
Qed.

(** The compiled expression at the head of an input: its first match is the
    literal span, with the inner text as the only capture. *)
Lemma run_compiled (starting closing : str) (s : str) :
  hd_error (run (compiled starting closing) [] s)
  = option_map (fun ir => ([(1, fst ir)], snd ir))
      (Spec.literal_span starting closing s).
Proof.
  unfold compiled, Spec.literal_span. rewrite run_chars.
  destruct (strip_prefix starting s) as [rest|]; [|reflexivity].
  change (seq_of (key_group :: map RChar closing))
    with (RSeq key_group (seq_of (map RChar closing))).
  rewrite run_seq, run_key_group.
  destruct rest as [|c rest]; [reflexivity|].
  apply (close_scan closing [] rest [c]).
Qed.

Lemma find_close_sound (closing : str) : forall s acc inner rest,
  Spec.find_close closing acc s = Some (inner, rest) ->
  exists more, inner = rev acc ++ more /\ s = more ++ closing ++ rest.
Proof.
  induction s as [|c s IH]; intros acc inner rest H; cbn [Spec.find_close] in H.
  - destruct (strip_prefix closing []) as [r|] eqn:E; [|discriminate].
    inversion H; subst. exists []. rewrite app_nil_r. split; [reflexivity|].
    cbn [app]. now apply strip_prefix_app.
  - destruct (strip_prefix closing (c :: s)) as [r|] eqn:E.
    + inversion H; subst. exists []. rewrite app_nil_r. split; [reflexivity|].
      cbn [app]. now apply strip_prefix_app.
    + destruct (IH _ _ _ H) as [more [Hi Hs]]. exists (c :: more).
      subst. cbn [rev]. rewrite <- app_assoc. now split.
Qed.

(** A span is the starting delimiter, at least one character of inner
    text and the closing delimiter, literally. *)
Lemma literal_span_sound (starting closing s inner rest : str) :
  Spec.literal_span starting closing s = Some (inner, rest) ->
  inner <> [] /\ s = starting ++ inner ++ closing ++ rest.
Proof.
  unfold Spec.literal_span. intros H.
  destruct (strip_prefix starting s) as [[|c s']|] eqn:E; try discriminate.
  apply strip_prefix_app in E.
  destruct (find_close_sound _ _ _ _ _ H) as [more [Hi Hs]].
  subst. cbn [rev app]. split; [discriminate|]. reflexivity.
Qed.

Lemma literal_span_length (starting closing s : str) :
  length s <= length starting + length closing ->
  Spec.literal_span starting closing s = None.
Proof.
  intros Hl.
  destruct (Spec.literal_span starting closing s) as [[inner rest]|] eqn:E;
    [|reflexivity].
  apply literal_span_sound in E. destruct E as [Hne Hs]. exfalso.
  destruct inner as [|c inner]; [congruence|].
  subst s. rewrite !length_app in Hl. simpl in Hl. lia.
Qed.

Lemma matched_text (starting closing s inner rest : str) :
  Spec.literal_span starting closing s = Some (inner, rest) ->
  firstn (length s - length rest) s = starting ++ inner ++ closing.
Proof.
  intros H. apply literal_span_sound in H. destruct H as [_ ->].
  rewrite !app_assoc.
  rewrite (length_app (((starting ++ inner) ++ closing)) rest).
  replace (length ((starting ++ inner) ++ closing) + length rest - length rest)
    with (length ((starting ++ inner) ++ closing) + 0) by lia.
  rewrite firstn_app_2. simpl. apply app_nil_r.
Qed.

(** The search of the compiled expression finds the leftmost literal span. *)
Lemma exec_compiled (starting closing : str) : forall s skipped,
  exec_from (compiled starting closing) skipped s
  = option_map (Spec.span_match starting closing)
      (Spec.first_span starting closing skipped s).
Proof.
  induction s as [|c s IH]; intros skipped;
    cbn [exec_from Spec.first_span];
    pose proof (run_compiled starting closing) as Hrun.
  - specialize (Hrun []).
    destruct (Spec.literal_span starting closing []) as [[inner rest]|] eqn:E.
    + rewrite (literal_span_length starting closing []) in E
        by (simpl; lia). discriminate.
    + destruct (run (compiled starting closing) [] []); [reflexivity|].
      discriminate.
  - specialize (Hrun (c :: s)).
    destruct (Spec.literal_span starting closing (c :: s))
      as [[inner rest]|] eqn:E.
    + destruct (run (compiled starting closing) [] (c :: s)) as [|[caps r] l];
        [discriminate|].
      cbn in Hrun. inversion Hrun; subst.
      cbn [option_map Spec.span_match]. f_equal. f_equal.
      now apply matched_text.
    + destruct (run (compiled starting closing) [] (c :: s)); [|discriminate].
      apply IH.
Qed.

Lemma first_span_sound (starting closing : str) :
  forall s skipped before inner rest,
  Spec.first_span starting closing skipped s = Some (before, inner, rest) ->
  inner <> [] /\ rev skipped ++ s = before ++ starting ++ inner ++ closing ++ rest.
Proof.
  induction s as [|c s IH]; intros skipped before inner rest H;
    cbn [Spec.first_span] in H.
  - destruct (Spec.literal_span starting closing []) as [[i r]|] eqn:E;
      [|discriminate].
    inversion H; subst. apply literal_span_sound in E.
    destruct E as [Hne Hs]. split; [exact Hne|]. f_equal. exact Hs.
  - destruct (Spec.literal_span starting closing (c :: s)) as [[i r]|] eqn:E.
    + inversion H; subst. apply literal_span_sound in E.
      destruct E as [Hne Hs]. split; [exact Hne|]. f_equal. exact Hs.
    + destruct (IH _ _ _ _ H) as [Hne Hs]. split; [exact Hne|].
      cbn [rev] in Hs. now rewrite <- app_assoc in Hs.
Qed.

Lemma first_span_short (starting closing : str) : forall s skipped,
  length s <= length starting + length closing ->
  Spec.first_span starting closing skipped s = None.
Proof.
  induction s as [|c s IH]; intros skipped Hl; cbn [Spec.first_span];
    rewrite literal_span_length by exact Hl; [reflexivity|].
  apply IH. simpl in Hl. lia.
Qed.

(** No match of the compiled expression is empty, and each captures a
    key expression of at least one character. *)
Lemma match_all_spans (starting closing : str) : forall fuel skipped s,
  Forall (Spec.is_span starting closing)
    (fst (match_all_from fuel (compiled starting closing) skipped s)).
Proof.
  induction fuel as [|fuel IH]; intros skipped s; cbn [match_all_from];
    [constructor|].
  rewrite exec_compiled.
  destruct (Spec.first_span starting closing skipped s)
    as [[[before inner] rest]|] eqn:E; cbn [option_map]; [|constructor].
  apply first_span_sound in E. destruct E as [Hne _].
  assert (Hk : Spec.is_span starting closing
                 (Spec.span_match starting closing (before, inner, rest)))
    by (exists before, inner, rest; now split).
  cbn [Spec.span_match m_text m_after] in *.
  destruct (starting ++ inner ++ closing) as [|x text].
  - destruct rest as [|c rest].
    + cbn [fst]. constructor; [exact Hk|constructor].
    + specialize (IH [c] rest).
      destruct (match_all_from fuel _ [c] rest) as [ms tl].
      cbn [fst] in *. constructor; assumption.
  - specialize (IH [] rest).
    destruct (match_all_from fuel _ [] rest) as [ms tl].
    cbn [fst] in *. constructor; assumption.
Qed.

Lemma match_all_none (r : regex) (s : str) :
  fst (match_all r s) = [] -> match_all r s = ([], s).
Proof.
  unfold match_all. cbn [match_all_from].
  destruct (exec_from r [] s) as [m|]; [|reflexivity].
  destruct (m_text m) as [|x text].
  - destruct (m_after m) as [|c rest]; [discriminate|].
    destruct (match_all_from _ r [c] rest). discriminate.
  - destruct (match_all_from _ r [] (m_after m)). discriminate.
Qed.

Lemma match_all_short (starting closing s : str) :
  length s <= length starting + length closing ->
  match_all (compiled starting closing) s = ([], s).
Proof.
  intros Hl. unfold match_all. cbn [match_all_from].
  now rewrite exec_compiled, first_span_short.
Qed.

Lemma find_close_complete (closing rest : str) : forall more acc,
  exists inner after,
    Spec.find_close closing acc (more ++ closing ++ rest)
    = Some (inner, after).
Proof.
  induction more as [|c more IH]; intros acc.
  - cbn [app]. destruct (closing ++ rest) as [|x s] eqn:E;
      cbn [Spec.find_close]; rewrite <- E, strip_prefix_same; eauto.
  - cbn [app Spec.find_close].
    destruct (strip_prefix closing (c :: more ++ closing ++ rest)); eauto.
Qed.

Lemma literal_span_complete (starting closing inner rest : str) :
  inner <> [] ->
  exists i after,
    Spec.literal_span starting closing (starting ++ inner ++ closing ++ rest)
    = Some (i, after).
Proof.
  intros Hne. destruct inner as [|c inner]; [congruence|].
  unfold Spec.literal_span. rewrite strip_prefix_same. cbn [app].
  apply find_close_complete.
Qed.

Lemma first_span_complete (starting closing inner rest : str) :
  inner <> [] ->
  forall before skipped,
  exists sp,
    Spec.first_span starting closing skipped
      (before ++ starting ++ inner ++ closing ++ rest)
    = Some sp.
Proof.
  intros Hne. induction before as [|c before IH]; intros skipped.
  - destruct (literal_span_complete starting closing inner rest Hne)
      as [i [after H]].
    cbn [app].
    destruct (starting ++ inner ++ closing ++ rest) as [|x s] eqn:E;
      cbn [Spec.first_span]; rewrite H; eauto.
  - cbn [app Spec.first_span].
    destruct (Spec.literal_span starting closing
                (c :: before ++ starting ++ inner ++ closing ++ rest))
      as [[i after]|]; eauto.
Qed.

(** C4: for every pair of delimiter strings, whatever characters they hold,
    the pattern [replace] builds compiles, and its search finds exactly the
    leftmost literal span: the starting delimiter as written, at least one
    character of inner text, the nearest closing delimiter as written.  The
    match is that text, its only capture the inner text; and there is a
    match exactly when the template holds the starting delimiter, some
    inner text and the closing delimiter, in that order. *)
Theorem delimiters_are_literal (starting closing : str) :
  exists pattern,
    new_RegExp (pattern_source starting closing) = Some pattern
    /\ (forall (template skipped : str),
          exec_from pattern skipped template
          = option_map (Spec.span_match starting closing)
              (Spec.first_span starting closing skipped template))
    /\ (forall (template : str) (m : match_result),
          exec_from pattern [] template = Some m ->
          exists inner,
            inner <> []
            /\ template
               = m_before m ++ starting ++ inner ++ closing ++ m_after m
            /\ m_text m = starting ++ inner ++ closing
            /\ capture 1 (m_caps m) = Some inner)
    /\ (forall (template : str),
          (exists m, exec_from pattern [] template = Some m)
          <-> (exists before inner rest,
                 inner <> []
                 /\ template
                    = before ++ starting ++ inner ++ closing ++ rest)).
Proof.
  exists (compiled starting closing).
  assert (Hdec : forall (template : str) (m : match_result),
             exec_from (compiled starting closing) [] template = Some m ->
             exists inner,
               inner <> []
               /\ template
                  = m_before m ++ starting ++ inner ++ closing ++ m_after m
               /\ m_text m = starting ++ inner ++ closing
               /\ capture 1 (m_caps m) = Some inner).
  { intros template m H. rewrite exec_compiled in H.
    destruct (Spec.first_span starting closing [] template)
      as [[[before inner] rest]|] eqn:E; [|discriminate].
    inversion H; subst. apply first_span_sound in E.
    destruct E as [Hne Ht]. exists inner. now repeat split. }
  split; [apply new_RegExp_pattern|]. split; [|split].
  - intros template skipped. apply exec_compiled.
  - exact Hdec.
  - intros template. split.
    + intros [m H]. destruct (Hdec template m H) as [inner [Hne [Ht _]]].
      exists (m_before m), inner, (m_after m). now split.
    + intros [before [inner [rest [Hne ->]]]].
      destruct (first_span_complete starting closing inner rest Hne before [])
        as [sp H].
      exists (Spec.span_match starting closing sp).
      now rewrite exec_compiled, H.
Qed.

Lemma delimiters_are_literal_witness :
  exists pattern,
    new_RegExp (pattern_source "[[" "]]") = Some pattern
    /\ exec_from pattern [] "a.*[[k]]b"
       = Some {| m_before := "a.*"; m_text := "[[k]]";
                 m_caps := [(1, "k" : str)]; m_after := "b" |}.
Proof.
  destruct (delimiters_are_literal "[[" "]]") as [pattern [Hp [Hexec _]]].
  exists pattern. split; [exact Hp|]. rewrite Hexec. reflexivity.
Defined.

Lemma match_all_partition (starting closing : str) : forall fuel skipped s,
  rev skipped ++ s
  = flat_map (fun m => m_before m ++ m_text m)
      (fst (match_all_from fuel (compiled starting closing) skipped s))
    ++ snd (match_all_from fuel (compiled starting closing) skipped s).
Proof.
  induction fuel as [|fuel IH]; intros skipped s; cbn [match_all_from];
    [reflexivity|].
  rewrite exec_compiled.
  destruct (Spec.first_span starting closing skipped s)
    as [[[before inner] rest]|] eqn:E; cbn [option_map]; [|reflexivity].
  apply first_span_sound in E. destruct E as [Hne Hs].
  cbn [Spec.span_match m_text m_after].
  destruct (starting ++ inner ++ closing) as [|x text] eqn:T.
  - exfalso. apply app_eq_nil in T. destruct T as [_ T].
    apply app_eq_nil in T. now destruct T.
  - specialize (IH [] rest).
    destruct (match_all_from fuel (compiled starting closing) [] rest)
      as [ms tl].
    cbn [fst snd flat_map m_before m_text rev app] in *.
    rewrite Hs, <- !app_assoc, <- IH. f_equal.
    change (x :: text ++ rest) with ((x :: text) ++ rest).
    rewrite <- T, <- !app_assoc. reflexivity.
Qed.

End RegExpFacts.

(** ** Facts about the rendering of [util.inspect] and of numbers *)
Module NodeFacts.
Import JS Node.

Lemma alike_is_number n v w : alike n v w -> is_number v = is_number w.
Proof.
  destruct n, v as [| | | | |[|x l]|[|p ps]|], w as [| | | | |[|y l']|[|q qs]|];
    simpl; intros H; try reflexivity; try discriminate H.
Qed.

Lemma fold_left_Forall2 {A B C : Type} (R : A -> B -> Prop)
    (f : C -> A -> C) (g : C -> B -> C) l l' :
  Forall2 R l l' ->
  (forall acc x y, R x y -> f acc x = g acc y) ->
  forall a, fold_left f l a = fold_left g l' a.
Proof.
  intros HF Hfg. induction HF as [|x y l l' Hxy _ IH]; intros a; simpl.
  - reflexivity.
  - rewrite (Hfg a x y Hxy). apply IH.
Qed.

Lemma Forall2_firstn {A B : Type} (R : A -> B -> Prop) k l l' :
  Forall2 R l l' -> Forall2 R (firstn k l) (firstn k l').
Proof.
  intros HF. revert k.
  induction HF as [|x y l l' Hxy _ IH]; intros [|k]; simpl;
    constructor; auto.
Qed.

Lemma forallb_Forall2 {A : Type} (R : A -> A -> Prop) (p : A -> bool) l l' :
  Forall2 R l l' -> (forall x y, R x y -> p x = p y) ->
  forallb p l = forallb p l'.
Proof.
  intros HF Hp. induction HF as [|x y l l' Hxy _ IH]; simpl.
  - reflexivity.
  - rewrite (Hp x y Hxy), IH. reflexivity.
Qed.

(** The grouping of an array reads its elements only to tell numbers from
    the rest. *)
Lemma reduce_alike n output o c r i cd l l' :
  Forall2 (alike n) l l' ->
  reduceToSingleString output o c true r i cd l
  = reduceToSingleString output o c true r i cd l'.
Proof.
  intros HF. unfold reduceToSingleString, groupArrayElements.
  rewrite (forallb_Forall2 (alike n) is_number
             (firstn (length output) l) (firstn (length output) l')).
  - reflexivity.
  - apply Forall2_firstn, HF.
  - intros x y. apply alike_is_number.
Qed.

(** With [n] levels left to expand, the rendering reads a value down to
    [n] levels and no further. *)
Lemma formatValue_alike n : forall v w r i cd,
  alike n v w -> formatValue n r i cd v = formatValue n r i cd w.
Proof.
  induction n as [|n IH]; intros v w r i cd H.
  - destruct v as [| | | | |[|x l]|[|p ps]|], w as [| | | | |[|y l']|[|q qs]|];
      simpl in H; try reflexivity; try discriminate H;
      try (injection H as ->; reflexivity);
      try (injection H as -> ->; reflexivity).
  - destruct v as [| | | | |[|x l]|[|p ps]|], w as [| | | | |[|y l']|[|q qs]|];
      simpl in H; try reflexivity; try discriminate H;
      try (injection H as ->; reflexivity);
      try (injection H as -> ->; reflexivity).
    + cbn [formatValue].
      rewrite (fold_left_Forall2 (alike n) _
                 (fun acc x0 =>
                    let '(s, cd') :=
                      formatValue n (S r) (i + 2) (snd acc) x0 in
                    (fst acc ++ [s], cd'))
                 (firstn maxArrayLength (x :: l))
                 (firstn maxArrayLength (y :: l'))).
      * rewrite (Forall2_length H).
        destruct (fold_left _ _ _) as [output cd'].
        rewrite (reduce_alike n _ _ _ _ _ _ _ _ H). reflexivity.
      * apply Forall2_firstn, H.
      * intros acc a b Hab. rewrite (IH a b _ _ _ Hab). reflexivity.
    + cbn [formatValue].
      rewrite (fold_left_Forall2
                 (fun a b => fst a = fst b /\ alike n (snd a) (snd b)) _
                 (fun acc p0 =>
                    let '(s, cd') :=
                      formatValue n (S r) (i + 2) (snd acc) (snd p0) in
                    (fst acc ++ [property_name (fst p0) ++ ": " ++ s], cd'))
                 (p :: ps) (q :: qs)).
      * reflexivity.
      * exact H.
      * intros acc a b [Hk Hab]. rewrite (IH _ _ _ _ _ Hab), Hk. reflexivity.
Qed.

Lemma inspect_alike depth v w :
  alike (S depth) v w -> inspect depth v = inspect depth w.
Proof.
  intros H. unfold inspect. now rewrite (formatValue_alike _ v w 0 0 0 H).
Qed.

(** The text of a safe integer is its decimal digits, after a minus sign
    below zero. *)
Lemma NumberToString_safe (n : Z) :
  (0 <= n < 2 ^ 53)%Z ->
  NumberToString n = JS.decimal n
  /\ ((0 < n)%Z -> NumberToString (- n) = "-"%char :: JS.decimal n).
Proof.
  intros [H0 H1].
  assert (Hpos : forall p, (Z.pos p < 2 ^ 53)%Z ->
                           positive_text (Z.pos p) = JS.decimal (Z.pos p)).
  { intros p Hp. unfold positive_text, to_double.
    assert (E : (Z.log2 (Z.pos p) <? 53)%Z = true).
    { apply Z.ltb_lt. apply Z.log2_lt_pow2; lia. }
    rewrite E. reflexivity. }
  destruct n as [|p|p]; [| |lia].
  - split; [reflexivity|lia].
  - split; [|intros _]; cbn [NumberToString Z.opp]; now rewrite Hpos.
Qed.

End NodeFacts.


(** ** Facts about [replace] *)
Module TemplatarFacts.
Import JS RegExp Templatar RegExpFacts.

Section WithHost.
Context {host : Host}.
Variable self : t.
Variable data : JS.value.

Lemma placeholders_compiled (template : str) :
  placeholders self template
  = fst (match_all (compiled (starting self) (closing self)) template).
Proof.
  unfold placeholders. now rewrite new_RegExp_pattern.
Qed.

Lemma placeholders_spans (template : str) :
  Forall (Spec.is_span (starting self) (closing self))
    (placeholders self template).
Proof.
  rewrite placeholders_compiled. apply match_all_spans.
Qed.

Lemma span_keyed (m : match_result) :
  Spec.is_span (starting self) (closing self) m -> keyed m.
Proof.
  intros [before [inner [rest [Hne ->]]]]. exists inner. now split.
Qed.

Lemma placeholders_keyed (template : str) :
  Forall keyed (placeholders self template).
Proof.
  eapply Forall_impl; [|apply placeholders_spans]. apply span_keyed.
Qed.

Lemma remainder_compiled (template : str) :
  remainder self template
  = snd (match_all (compiled (starting self) (closing self)) template).
Proof.
  unfold remainder. now rewrite new_RegExp_pattern.
Qed.

(** On valid arguments [replace] is the substitution over the matches of
    the compiled pattern. *)
Lemma replace_valid (template : str) :
  is_object data = true ->
  replace self (VStr template) data
  = substitute self data (placeholders self template)
      (remainder self template).
Proof.
  unfold is_object, replace. intros H. apply andb_true_iff in H.
  destruct H as [Ht Hn]. apply negb_true_iff in Hn.
  cbn [typeof tag_eqb negb as_string]. rewrite Ht, Hn. cbn [negb orb].
  rewrite placeholders_compiled, remainder_compiled, new_RegExp_pattern.
  now destruct (match_all _ template).
Qed.

Lemma on_match_keyed (m : match_result) :
  keyed m -> on_match self data m = replacer self data (keyStr_of m).
Proof.
  intros [inner [_ H]]. unfold on_match, keyStr_of. now rewrite H.
Qed.

(** The callback throws exactly on an unresolved key expression when
    [ignoreMissing] is off; otherwise it calls the hook on [hook_input]. *)
Lemma replacer_cases (keyStr : str) :
  replacer self data keyStr
  = if fails self data keyStr then inl (MissingKey (key_of keyStr))
    else inr (hook_input data keyStr,
              ToString (transform self (hook_input data keyStr))).
Proof.
  unfold replacer, fails, unresolved, hook_input, resolved_value.
  fold (key_of keyStr). fold (default_of keyStr).
  unfold getProperty.
  destruct (resolvePath data (key_of keyStr));
    destruct (default_of keyStr); reflexivity.
Qed.

Lemma substitute_ok (tail : str) : forall ms,
  Forall keyed ms ->
  forallb (fun m => negb (fails self data (keyStr_of m))) ms = true ->
  calls (substitute self data ms tail)
  = map (hook_input data) (map keyStr_of ms)
  /\ exists out, result (substitute self data ms tail) = inr out.
Proof.
  induction ms as [|m ms IH]; intros Hk Hok.
  - split; [reflexivity|]. now exists tail.
  - inversion Hk as [|? ? Hm Hms]; subst.
    cbn [forallb] in Hok. apply andb_true_iff in Hok.
    destruct Hok as [Hf Hrest]. apply negb_true_iff in Hf.
    destruct (IH Hms Hrest) as [Hc [out Hr]].
    cbn [substitute]. rewrite (on_match_keyed m Hm), replacer_cases, Hf.
    cbn [calls result map]. rewrite Hc, Hr. split; [reflexivity|].
    eexists. reflexivity.
Qed.

Lemma substitute_stops (tail : str) (m : match_result)
    (l2 : list match_result) : forall l1,
  Forall keyed l1 -> keyed m ->
  forallb (fun m => negb (fails self data (keyStr_of m))) l1 = true ->
  fails self data (keyStr_of m) = true ->
  result (substitute self data (l1 ++ m :: l2) tail)
  = inl (MissingKey (key_of (keyStr_of m)))
  /\ calls (substitute self data (l1 ++ m :: l2) tail)
     = map (hook_input data) (map keyStr_of l1).
Proof.
  induction l1 as [|x l1 IH]; intros Hk Hm Hok Hf.
  - cbn [app substitute]. rewrite (on_match_keyed m Hm), replacer_cases, Hf.
    now split.
  - inversion Hk as [|? ? Hx Hl1]; subst.
    cbn [forallb] in Hok. apply andb_true_iff in Hok.
    destruct Hok as [Hfx Hrest]. apply negb_true_iff in Hfx.
    destruct (IH Hl1 Hm Hrest Hf) as [Hr Hc].
    cbn [app substitute]. rewrite (on_match_keyed x Hx), replacer_cases, Hfx.
    cbn [calls result map]. rewrite Hr, Hc. now split.
Qed.

Lemma substitute_error (tail : str) (e : error) : forall ms,
  Forall keyed ms ->
  result (substitute self data ms tail) = inl e ->
  exists m, In m ms /\ fails self data (keyStr_of m) = true
            /\ e = MissingKey (key_of (keyStr_of m)).
Proof.
  induction ms as [|m ms IH]; intros Hk Hr.
  - discriminate Hr.
  - inversion Hk as [|? ? Hm Hms]; subst.
    cbn [substitute] in Hr.
    rewrite (on_match_keyed m Hm), replacer_cases in Hr.
    destruct (fails self data (keyStr_of m)) eqn:Hf.
    + cbn in Hr. inversion Hr; subst. exists m. repeat split; auto.
      now left.
    + cbn [result] in Hr.
      destruct (result (substitute self data ms tail)) as [e'|out] eqn:Hs;
        [|discriminate].
      inversion Hr; subst.
      destruct (IH Hms eq_refl) as [m' [Hin H']]. exists m'. split; [|exact H'].
      now right.
Qed.

Lemma first_true {A : Type} (p : A -> bool) : forall l,
  existsb p l = true ->
  exists l1 x l2, l = l1 ++ x :: l2
                  /\ forallb (fun y => negb (p y)) l1 = true /\ p x = true.
Proof.
  induction l as [|a l IH]; intros H; [discriminate|].
  destruct (p a) eqn:Ha.
  - exists [], a, l. now repeat split.
  - cbn [existsb] in H. rewrite Ha in H. destruct (IH H) as [l1 [x [l2 [-> [Hf Hx]]]]].
    exists (a :: l1), x, l2. repeat split; auto.
    cbn [forallb]. now rewrite Ha, Hf.
Qed.

Lemma fails_strict (keyStr : str) :
  ignoreMissing self = false -> fails self data keyStr = unresolved data keyStr.
Proof.
  unfold fails. intros ->. apply andb_true_r.
Qed.

Lemma fails_lenient (keyStr : str) :
  ignoreMissing self = true -> fails self data keyStr = false.
Proof.
  unfold fails. intros ->. apply andb_false_r.
Qed.

Lemma unresolved_value (keyStr : str) :
  unresolved data keyStr = true -> resolved_value data keyStr = VUndefined.
Proof.
  unfold unresolved, resolved_value, getProperty. intros H.
  apply andb_true_iff in H. destruct H as [Hr Hd].
  destruct (resolvePath data (key_of keyStr)); try discriminate.
  now destruct (default_of keyStr).
Qed.

(** C2: on a string template and valid data, [replace] throws MissingKey if
    and only if [ignoreMissing] is off and some placeholder's key does not
    resolve and has no default.  The error names the trimmed key of the first
    such placeholder, no text is returned, and the hook was called for the
    placeholders before it only.  With [ignoreMissing] on there is no
    error: the hook is called for every placeholder, with the text of
    [undefined] for an unresolved one. *)
Theorem missing_key_policy (template : str) :
  is_object data = true ->
  let out := replace self (VStr template) data in
  let ks := key_expressions self template in
  ((exists k, result out = inl (MissingKey k))
   <-> ignoreMissing self = false /\ existsb (unresolved data) ks = true)
  /\ (forall l1 k l2,
        ignoreMissing self = false ->
        ks = l1 ++ k :: l2 ->
        forallb (fun k' => negb (unresolved data k')) l1 = true ->
        unresolved data k = true ->
        result out = inl (MissingKey (key_of k))
        /\ calls out = map (hook_input data) l1)
  /\ (ignoreMissing self = true ->
        (exists text, result out = inr text)
        /\ calls out = map (hook_input data) ks
        /\ forall k, unresolved data k = true ->
                     value (hook_input data k) = "undefined").
Proof.
  intros Hdata out ks. subst out ks. rewrite (replace_valid template Hdata).
  unfold key_expressions.
  pose proof (placeholders_keyed template) as Hk.
  set (ms := placeholders self template) in *.
  set (tail := remainder self template).
  assert (Hstop : forall l1 k l2,
             ignoreMissing self = false ->
             map keyStr_of ms = l1 ++ k :: l2 ->
             forallb (fun k' => negb (unresolved data k')) l1 = true ->
             unresolved data k = true ->
             result (substitute self data ms tail) = inl (MissingKey (key_of k))
             /\ calls (substitute self data ms tail)
                = map (hook_input data) l1).
  { intros l1 k l2 Hi Hks Hl1 Hu.
    apply map_eq_app in Hks. destruct Hks as [ms1 [ms2 [Hms [H1 H2]]]].
    apply map_eq_cons in H2. destruct H2 as [m [ms3 [H2 [Hm H3]]]].
    subst l1 k ms2. rewrite Hms in Hk |- *.
    apply Forall_app in Hk. destruct Hk as [Hk1 Hk2].
    inversion Hk2 as [|? ? Hkm _]; subst.
    apply substitute_stops; auto.
    - rewrite forallb_forall in Hl1 |- *. intros x Hx.
      rewrite fails_strict by exact Hi. apply Hl1. now apply in_map.
    - now rewrite fails_strict. }
  split; [split|split].
  - intros [k Hr]. apply substitute_error in Hr; [|exact Hk].
    destruct Hr as [m [Hin [Hf _]]]. unfold fails in Hf.
    apply andb_true_iff in Hf. destruct Hf as [Hu Hi].
    apply negb_true_iff in Hi. split; [exact Hi|].
    apply existsb_exists. exists (keyStr_of m). split; [|exact Hu].
    now apply in_map.
  - intros [Hi Hex]. apply first_true in Hex.
    destruct Hex as [l1 [k [l2 [Hks [Hl1 Hu]]]]].
    exists (key_of k). now apply (Hstop l1 k l2).
  - exact Hstop.
  - intros Hi.
    destruct (substitute_ok tail ms Hk) as [Hc Hr].
    { apply forallb_forall. intros m _. now rewrite fails_lenient. }
    repeat split; [exact Hr|exact Hc|].
    intros k Hu. unfold hook_input. cbn [value].
    now rewrite (unresolved_value k Hu).
Qed.

(** C3 (amended): a template that is not a string makes [replace] throw
    InvalidTemplateType, whatever the data; on a string template, data that
    is [null] or not of type object makes it throw InvalidDataType.  In both
    cases nothing is returned and the hook is not called. *)
Theorem type_errors (template : JS.value) :
  (typeof template <> TString ->
   replace self template data = throw InvalidTemplateType)
  /\ (typeof template = TString ->
      data = VNull \/ typeof data <> TObject ->
      replace self template data = throw InvalidDataType).
Proof.
  unfold replace. split.
  - intros H. destruct template; try reflexivity. now contradiction H.
  - intros Ht Hd. rewrite Ht. cbn [tag_eqb negb].
    destruct Hd as [->|Hd]; [reflexivity|].
    destruct data; try reflexivity; now contradiction Hd.
Qed.

Lemma replace_without_placeholders (template : str) :
  is_object data = true ->
  placeholders self template = [] ->
  replace self (VStr template) data
  = {| calls := []; result := inr template |}.
Proof.
  intros Hdata Hnone. rewrite (replace_valid template Hdata), Hnone.
  rewrite placeholders_compiled in Hnone. apply match_all_none in Hnone.
  rewrite remainder_compiled, Hnone. reflexivity.
Qed.

(** C8: a template in which the compiled pattern finds no placeholder is
    returned as it is, for any valid data, and the hook is not called. *)
Theorem no_placeholder_identity (template : str) :
  is_object data = true ->
  placeholders self template = [] ->
  replace self (VStr template) data
  = {| calls := []; result := inr template |}.
Proof. exact (replace_without_placeholders template). Qed.

(** The output is the template's own text around the placeholders and the
    replacement texts, each put in as the hook returned it. *)
Lemma replace_splice (template out : str) :
  is_object data = true ->
  result (replace self (VStr template) data) = inr out ->
  out = flat_map
          (fun m => m_before m
                    ++ ToString (transform self
                                   (hook_input data (keyStr_of m))))
          (placeholders self template)
        ++ remainder self template.
Proof.
  intros Hdata. rewrite (replace_valid template Hdata).
  pose proof (placeholders_keyed template) as Hk.
  revert out.
  induction (placeholders self template) as [|m ms IH]; intros out Hr.
  - cbn in Hr. now inversion Hr.
  - inversion Hk as [|? ? Hm Hms]; subst.
    cbn [substitute] in Hr.
    rewrite (on_match_keyed m Hm), replacer_cases in Hr.
    destruct (fails self data (keyStr_of m)); [discriminate|].
    cbn [result] in Hr.
    destruct (result (substitute self data ms (remainder self template)))
      as [e|rest] eqn:E; [discriminate|].
    inversion Hr; subst. cbn [flat_map].
    rewrite (IH Hms rest eq_refl), <- !app_assoc. reflexivity.
Qed.

(** Every call of the hook in a substitution has the argument read from
    the key expression of one of the matches. *)
Lemma substitute_calls_input (tail : str) : forall ms,
  Forall keyed ms ->
  forall arg, In arg (calls (substitute self data ms tail)) ->
  exists m, In m ms /\ arg = hook_input data (keyStr_of m).
Proof.
  induction ms as [|m ms IH]; intros Hk arg Hin; [contradiction|].
  inversion Hk as [|? ? Hm Hms]; subst.
  cbn [substitute] in Hin.
  rewrite (on_match_keyed m Hm), replacer_cases in Hin.
  destruct (fails self data (keyStr_of m)); [contradiction|].
  cbn [calls] in Hin. destruct Hin as [<-|Hin].
  - exists m. split; [now left|reflexivity].
  - destruct (IH Hms arg Hin) as [m' [Hm' ->]].
    exists m'. split; [now right|reflexivity].
Qed.

Lemma spliced_flat_map (f : match_result -> str) (tail : str) : forall ms,
  flat_map (fun m => m_before m ++ f m) ms ++ tail = spliced f ms tail.
Proof.
  induction ms as [|m ms IH]; [reflexivity|].
  cbn [flat_map spliced]. now rewrite <- !app_assoc, IH.
Qed.

Lemma spliced_app (f : match_result -> str) (tail : str) : forall ms1 ms2,
  spliced f (ms1 ++ ms2) tail = spliced f ms1 (spliced f ms2 tail).
Proof.
  induction ms1 as [|m ms1 IH]; intros ms2; [reflexivity|].
  cbn [app spliced]. now rewrite IH.
Qed.

Lemma spliced_tail (f : match_result -> str) (t1 t2 : str) : forall ms,
  spliced f ms (t1 ++ t2) = spliced f ms t1 ++ t2.
Proof.
  induction ms as [|m ms IH]; [reflexivity|].
  cbn [spliced]. now rewrite IH, !app_assoc.
Qed.

Lemma spliced_first_gap (f : match_result -> str) (g1 g2 tail : str) ms :
  first_gap ms tail = g1 ++ g2 ->
  spliced f ms tail = g1 ++ spliced_from f g2 ms tail.
Proof.
  destruct ms as [|m ms]; cbn [first_gap spliced spliced_from]; intros ->.
  - reflexivity.
  - now rewrite <- app_assoc.
Qed.

Lemma split_at_le {A : Type} : forall (c a b d : list A),
  a ++ b = c ++ d -> length c <= length a ->
  exists l, a = c ++ l /\ d = l ++ b.
Proof.
  induction c as [|x c IH]; intros a b d H Hl.
  - exists a. now split.
  - destruct a as [|y a]; [simpl in Hl; lia|].
    simpl in H. injection H as -> H. simpl in Hl.
    destruct (IH a b d H ltac:(lia)) as [l [-> ->]].
    exists l. now split.
Qed.

(** A piece [P] of a text cut by a scan either overlaps one of the matches
    or lies in one of the skipped texts. *)
Lemma piece_located (P : str) : forall ms tail pre post,
  spliced m_text ms tail = pre ++ P ++ post ->
  (exists ms1 m ms2,
     ms = ms1 ++ m :: ms2
     /\ length (spliced m_text ms1 (m_before m)) < length pre + length P
     /\ length pre
        < length (spliced m_text ms1 (m_before m)) + length (m_text m))
  \/ (exists ms1 ms2 g1 g2,
        ms = ms1 ++ ms2
        /\ first_gap ms2 tail = g1 ++ P ++ g2
        /\ pre = spliced m_text ms1 g1
        /\ post = spliced_from m_text g2 ms2 tail).
Proof.
  induction ms as [|m ms IH]; intros tail pre post H.
  - right. exists [], [], pre, post. cbn in *. now repeat split.
  - cbn [spliced] in H.
    destruct (le_lt_dec (length pre + length P) (length (m_before m)))
      as [HA|HA].
    + right. rewrite (app_assoc pre) in H.
      destruct (split_at_le (pre ++ P) (m_before m) _ post H) as [l [Hb Hp]].
      { rewrite length_app. lia. }
      exists [], (m :: ms), pre, l. cbn [app first_gap spliced spliced_from].
      rewrite <- app_assoc in Hb. now repeat split.
    + destruct (le_lt_dec (length (m_before m) + length (m_text m))
                  (length pre)) as [HB|HB].
      * rewrite app_assoc in H. symmetry in H.
        destruct (split_at_le (m_before m ++ m_text m) pre _ _ H)
          as [l [Hp Hr]].
        { rewrite length_app. lia. }
        destruct (IH tail l post Hr)
          as [[ms1 [m' [ms2 [E [H1 H2]]]]]|[ms1 [ms2 [g1 [g2 [E [Hg [H1 H2]]]]]]]].
        -- left. exists (m :: ms1), m', ms2. subst ms pre.
           cbn [app spliced]. rewrite !length_app in *. repeat split; lia.
        -- right. exists (m :: ms1), ms2, g1, g2. subst ms pre l.
           cbn [app spliced]. rewrite <- app_assoc. now repeat split.
      * left. exists [], m, ms. cbn [app spliced]. repeat split; lia.
Qed.

(** C10 (amended): every placeholder the pattern finds has at least one
    character between its delimiters, so the starting delimiter followed at
    once by the closing one is not a placeholder by itself, and the template
    made of that pair alone is returned unchanged.  In any template, an
    occurrence of the pair either overlaps a placeholder the scan finds (it
    opens, closes or lies inside a longer one) or stands in the text the
    scan skips: then the output holds it at its place, between the text
    before it and the text after it with their placeholders replaced. *)
Theorem empty_span_not_matched :
  (forall template m,
     In m (placeholders self template) ->
     exists inner,
       inner <> [] /\ keyStr_of m = inner
       /\ m_text m = starting self ++ inner ++ closing self)
  /\ (is_object data = true ->
      replace self (VStr (starting self ++ closing self)) data
      = {| calls := []; result := inr (starting self ++ closing self) |})
  /\ (forall template pre post out,
        template = pre ++ starting self ++ closing self ++ post ->
        is_object data = true ->
        result (replace self (VStr template) data) = inr out ->
        (exists ms1 m ms2,
           placeholders self template = ms1 ++ m :: ms2
           /\ length (spliced m_text ms1 (m_before m))
              < length pre + length (starting self ++ closing self)
           /\ length pre
              < length (spliced m_text ms1 (m_before m))
                + length (m_text m))
        \/ (exists ms1 ms2 g1 g2,
              placeholders self template = ms1 ++ ms2
              /\ first_gap ms2 (remainder self template)
                 = g1 ++ starting self ++ closing self ++ g2
              /\ pre = spliced m_text ms1 g1
              /\ post = spliced_from m_text g2 ms2
                          (remainder self template)
              /\ out = spliced (replacement self data) ms1 g1
                       ++ starting self ++ closing self
                       ++ spliced_from (replacement self data) g2 ms2
                            (remainder self template))).
Proof.
  split; [|split].
  - intros template m Hin.
    pose proof (placeholders_spans template) as Hs.
    rewrite Forall_forall in Hs.
    destruct (Hs m Hin) as [before [inner [rest [Hne ->]]]].
    exists inner. now repeat split.
  - intros Hdata. apply replace_without_placeholders; [exact Hdata|].
    rewrite placeholders_compiled, match_all_short; [reflexivity|].
    rewrite length_app. lia.
  - intros template pre post out Ht Hdata Hr.
    apply (replace_splice template out Hdata) in Hr.
    fold (replacement self data) in Hr.
    change (fun m => m_before m
                     ++ ToString (transform self
                                    (hook_input data (keyStr_of m))))
      with (fun m => m_before m ++ replacement self data m) in Hr.
    rewrite spliced_flat_map in Hr.
    assert (Hp : spliced m_text (placeholders self template)
                   (remainder self template)
                 = pre ++ (starting self ++ closing self) ++ post).
    { rewrite <- spliced_flat_map, <- app_assoc, <- Ht.
      rewrite placeholders_compiled, remainder_compiled. symmetry.
      apply (match_all_partition (starting self) (closing self)
               (S (length template)) [] template). }
    destruct (piece_located _ _ _ _ _ Hp)
      as [H|[ms1 [ms2 [g1 [g2 [E [Hg [H1 H2]]]]]]]]; [left; exact H|].
    right. exists ms1, ms2, g1, g2.
    rewrite <- app_assoc in Hg. repeat split; try assumption.
    rewrite Hr, E, spliced_app.
    rewrite (spliced_first_gap _ (g1 ++ starting self ++ closing self) g2
               _ ms2).
    + rewrite !spliced_tail, <- !app_assoc. reflexivity.
    + rewrite Hg, <- !app_assoc. reflexivity.
Qed.

End WithHost.

(** C6: the value handed to the hook.  On a key expression that does not
    fail, the callback calls the hook with the resolved value normalized
    (and the default expression and the trimmed key) and returns [String]
    of its result; every argument the hook receives in a run of [replace]
    is of this form.  Normalized, the host's [util.inspect] being Node's: a
    string as it is; an array or an object as the text of [util.inspect]
    with depth 4, which reads the value down to the fifth level of nesting
    and no further, a container below the fourth being written [[Array]] or
    [[Object]]; [undefined], [null], a boolean or a number as the text of
    [String]: the decimal digits for a safe integer, the exponent form from
    1e21 on, the shortest digits for a fraction, NaN and the infinities by
    name. *)
Theorem hook_value_normalized {host : Host} (self : t) (data v : JS.value)
    (keyStr : str) :
  (forall depth w, inspectObject depth w = Node.inspect depth w) ->
  replacer self data keyStr
  = (if fails self data keyStr then inl (MissingKey (key_of keyStr))
     else
       let arg := {| value := normalize (resolved_value data keyStr);
                     defaultVal := default_of keyStr;
                     key := key_of keyStr |} in
       inr (arg, ToString (transform self arg)))
  /\ (forall template arg,
        is_object data = true ->
        In arg (calls (replace self (VStr template) data)) ->
        exists keyStr,
          In keyStr (key_expressions self template)
          /\ arg = {| value := normalize (resolved_value data keyStr);
                      defaultVal := default_of keyStr;
                      key := key_of keyStr |})
  /\ normalize v
     = match v with
       | VStr s => s
       | VArr _ | VObj _ => Node.inspect 4 v
       | VUndefined => "undefined"
       | VNull => "null"
       | VBool b => if b then "true" else "false"
       | VNum n => NumberToString n
       | VFloat x => Number_toString x
       end
  /\ (forall w, Node.alike 5 v w -> normalize w = normalize v)
  /\ (forall n : Z,
        (0 <= n < 2 ^ 53)%Z ->
        NumberToString n = JS.decimal n
        /\ ((0 < n)%Z -> NumberToString (- n) = "-"%char :: JS.decimal n))
  /\ map NumberToString
       [5; -12; 0; 10 ^ 21; 10 ^ 21 - 1; 2 ^ 53 + 1; 2 ^ 1024]%Z
     = texts [ "5"; "-12"; "0"; "1e+21"; "1e+21"; "9007199254740992";
               "Infinity" ]
  /\ map Number_toString
       [ NaN; Infinity false; Infinity true; NegativeZero;
         Decimal 15 (-1); Decimal 1 (-6); Decimal 1 (-7);
         Decimal (-25) (-2); Decimal 30000000000000004 (-17);
         Decimal 12345 18 ]
     = texts [ "NaN"; "Infinity"; "-Infinity"; "0"; "1.5"; "0.000001";
               "1e-7"; "-0.25"; "0.30000000000000004"; "1.2345e+22" ]
  /\ map (Node.inspect 4)
       [ VArr [VNum 1];
         VObj [("a" : str, VObj [("b" : str, VNum 1)])];
         VObj [("name" : str, VStr "x");
               ("tags" : str, VArr [VStr "a"; VStr "b"])];
         VArr [VFloat NegativeZero; VFloat NaN; VFloat (Decimal 15 (-1));
               VNull; VUndefined; VBool true; VArr []; VObj []];
         VArr (map VNum [1; 2; 3; 4; 5; 6; 7; 8; 9; 10]%Z);
         VObj [("a" : str,
           VObj [("b" : str,
             VObj [("c" : str,
               VObj [("d" : str,
                 VObj [("e" : str,
                   VObj [("f" : str, VNum 1)])])])])])] ]
     = texts [ "[ 1 ]";
               "{ a: { b: 1 } }";
               "{ name: 'x', tags: [ 'a', 'b' ] }";
               "[ -0, NaN, 1.5, null, undefined, true, [], {} ]" ]
       ++ [ Node.lines
              (texts [ "["; "  1, 2, 3, 4,  5,"; "  6, 7, 8, 9, 10"; "]" ]);
            Node.lines
              (texts [ "{"; "  a: {";
                       "    b: { c: { d: { e: [Object] } } }";
                       "  }"; "}" ]) ].
Proof.
  intros Hnode.
  assert (Hn : forall u, normalize u
                = match u with
                  | VStr s => s
                  | VArr _ | VObj _ => Node.inspect 4 u
                  | VUndefined => "undefined"
                  | VNull => "null"
                  | VBool b => if b then "true" else "false"
                  | VNum n => NumberToString n
                  | VFloat x => Number_toString x
                  end).
  { intros [| | | | | | |]; try reflexivity; intros; apply Hnode. }
  split; [|split; [|split; [|split; [|split; [|split; [|split]]]]]].
  - rewrite replacer_cases. reflexivity.
  - intros template arg Hd Hin. rewrite (replace_valid self data _ Hd) in Hin.
    destruct (substitute_calls_input self data _ _
                (placeholders_keyed self template) arg Hin) as [m [Hm ->]].
    exists (keyStr_of m). split; [|reflexivity].
    unfold key_expressions. now apply in_map.
  - apply Hn.
  - intros w H. rewrite !Hn.
    destruct v as [| | | | |[|x l]|[|p ps]|],
             w as [| | | | |[|y l']|[|q qs]|];
      try discriminate H; try (injection H as <-; reflexivity);
      try reflexivity; symmetry; now apply NodeFacts.inspect_alike.
  - apply NodeFacts.NumberToString_safe.
  - vm_compute. reflexivity.
  - vm_compute. reflexivity.
  - vm_compute. reflexivity.
Qed.

(** *** The split of a key expression *)

Lemma split_bars_step (c c' : ascii) (rest cur : str) :
  split_bars_from cur (c :: c' :: rest)
  = if is_bars c c' then rev cur :: split_bars_from [] rest
    else split_bars_from (c :: cur) (c' :: rest).
Proof. reflexivity. Qed.

Lemma cut_bars_step (c c' : ascii) (rest : str) :
  Spec.cut_bars (c :: c' :: rest)
  = if is_bars c c' then Some ([], rest)
    else match Spec.cut_bars (c' :: rest) with
         | Some (a, b) => Some (c :: a, b)
         | None => None
         end.
Proof. reflexivity. Qed.

Lemma split_bars_cut : forall n s cur,
  length s <= n ->
  split_bars_from cur s
  = match Spec.cut_bars s with
    | None => [rev cur ++ s]
    | Some (a, b) => (rev cur ++ a) :: split_bars_from [] b
    end.
Proof.
  induction n as [|n IH]; intros s cur Hl.
  - destruct s; [|simpl in Hl; lia]. simpl. now rewrite app_nil_r.
  - destruct s as [|c [|c' rest]].
    + simpl. now rewrite app_nil_r.
    + reflexivity.
    + rewrite split_bars_step, cut_bars_step.
      destruct (is_bars c c').
      * now rewrite app_nil_r.
      * rewrite (IH (c' :: rest) (c :: cur)) by (simpl in Hl |- *; lia).
        destruct (Spec.cut_bars (c' :: rest)) as [[a b]|];
          cbn [rev]; now rewrite <- app_assoc.
Qed.

(** What the destructured split gives: the key is the trimmed text before
    the first [||]; the default is the text between the first [||] and the
    second one, or all the text after the first when there is no second. *)
Lemma destructured_split (keyStr : str) :
  match Spec.cut_bars keyStr with
  | None => key_of keyStr = trim keyStr /\ default_of keyStr = None
  | Some (k, rest) =>
      key_of keyStr = trim k
      /\ default_of keyStr
         = Some (match Spec.cut_bars rest with
                 | None => rest
                 | Some (d, _) => d
                 end)
  end.
Proof.
  unfold key_of, default_of, split_bars.
  rewrite (split_bars_cut (length keyStr)) by lia.
  destruct (Spec.cut_bars keyStr) as [[k rest]|]; [|now split].
  split; [reflexivity|]. cbn [nth_error].
  rewrite (split_bars_cut (length rest)) by lia.
  now destruct (Spec.cut_bars rest) as [[d more]|].
Qed.

(** A default expression that holds no [||] reaches the hook as written,
    untrimmed, when the key does not resolve. *)
Lemma default_verbatim {host : Host} (self : t) (data : JS.value)
    (keyStr k d : str) :
  Spec.cut_bars keyStr = Some (k, d) ->
  Spec.cut_bars d = None ->
  resolvePath data (trim k) = VUndefined ->
  replacer self data keyStr
  = inr ({| value := d; defaultVal := Some d; key := trim k |},
         ToString (transform self
                     {| value := d; defaultVal := Some d; key := trim k |})).
Proof.
  intros Hcut Hd Hres. pose proof (destructured_split keyStr) as H.
  rewrite Hcut, Hd in H. destruct H as [Hk Hdef].
  rewrite replacer_cases.
  unfold fails, unresolved, hook_input, resolved_value, getProperty.
  rewrite Hk, Hdef, Hres. reflexivity.
Qed.

(** *** The claims on concrete templates *)

(** C1: the key expression [k||a||b] is split at both [||] and only the
    first two pieces are kept: the default is [a], where cutting at the
    first [||] alone leaves [a||b], and the placeholder is replaced by [a]. *)
Theorem second_bars_end_default (inspectObject : nat -> JS.value -> str) :
  Spec.cut_bars "k||a||b" = Some ("k" : str, "a||b" : str)
  /\ split_bars "k||a||b" = ["k" : str; "a" : str; "b" : str]
  /\ default_of "k||a||b" = Some ("a" : str)
  /\ result (replace (host := dotted inspectObject) defaults
               (VStr "<{k||a||b}>") (VObj []))
     = inr ("a" : str).
Proof. repeat split; vm_compute; reflexivity. Qed.

(** C5: the default expression [ x || y ] of a missing key is put in the
    output only up to its own [||]: the output is [ x ], blanks kept. *)
Theorem default_with_bars_truncated (inspectObject : nat -> JS.value -> str) :
  Spec.cut_bars "missing|| x || y " = Some ("missing" : str, " x || y " : str)
  /\ replace (host := dotted inspectObject) defaults
       (VStr "<{missing|| x || y }>") (VObj [])
     = {| calls := [{| value := " x "; defaultVal := Some (" x " : str);
                       key := "missing" |}];
          result := inr (" x " : str) |}.
Proof. split; vm_compute; reflexivity. Qed.

(** [new Templatar({ ignoreMissing: true })] on a missing key: the hook gets
    the text of [undefined]. *)
Example lenient_missing_key :
  replace (host := example_host) lenient (VStr "a <{missing}> b") (VObj [])
  = {| calls := [{| value := "undefined"; defaultVal := None;
                    key := "missing" |}];
       result := inr ("a undefined b" : str) |}.
Proof. reflexivity. Qed.

(** The placeholders of a template span lines, and the blanks of a default
    are kept. *)
Example multi_line_default :
  result (replace (host := example_host) defaults
            (VStr ("- A:" ++ ["010"%char] ++ "  <{acc ||" ++ ["010"%char]
                   ++ "  - x" ++ ["010"%char] ++ "    }>"))
            (VObj []))
  = inr ("- A:" ++ ["010"%char] ++ "  " ++ ["010"%char]
         ++ "  - x" ++ ["010"%char] ++ "    " : str).
Proof. reflexivity. Qed.

(** An empty delimiter option falls back to the default one. *)
Example empty_delimiter_defaulted :
  starting (constructor
              {| opt_delimiters :=
                   Some {| opt_starting := Some []; opt_closing := None |};
                 opt_ignoreMissing := None;
                 opt_transform := None |})
  = ("<{" : str).
Proof. reflexivity. Qed.

(** Delimiters made of pattern metacharacters. *)
Example bracket_delimiters :
  result (replace (host := example_host)
            (constructor
               {| opt_delimiters :=
                    Some {| opt_starting := Some ("[[" : str);
                            opt_closing := Some ("]]" : str) |};
                  opt_ignoreMissing := None;
                  opt_transform := None |})
            (VStr "Hello [[name]], a.b is [[ a.b ]] and <{name}> stays")
            (VObj [("name" : str, VStr "Bob");
                   ("a" : str, VObj [("b" : str, VBool true)])]))
  = inr ("Hello Bob, a.b is true and <{name}> stays" : str).
Proof. reflexivity. Qed.

(** C7: with the default configuration and the dotted-path getter, the
    template [<{a.b}>] on the data [{a: {b: 5}}] gives [5]. *)
Theorem dotted_path_example (inspectObject : nat -> JS.value -> str) :
  result (replace (host := dotted inspectObject) defaults (VStr "<{a.b}>")
            (VObj [("a" : str, VObj [("b" : str, VNum 5)])]))
  = inr ("5" : str).
Proof. vm_compute. reflexivity. Qed.

(** C9: substitution is one flat pass.  The output is the template's own
    text around its placeholders with the replacement texts put in as they
    are; a resolved value is spliced whatever it holds, placeholders
    included; and running [replace] again on the output can give another
    text, so [replace] is not idempotent. *)
Theorem flat_pass :
  (forall (host : Host) (self : t) (data : JS.value) (template out : str),
     is_object data = true ->
     result (replace self (VStr template) data) = inr out ->
     out = flat_map
             (fun m => m_before m
                       ++ ToString (transform self
                                      (hook_input data (keyStr_of m))))
             (placeholders self template)
           ++ remainder self template)
  /\ (forall (inspectObject : nat -> JS.value -> str) (v : str)
             (others : list (str * JS.value)),
        result (replace (host := dotted inspectObject) defaults
                  (VStr "<{k}>") (VObj (("k" : str, VStr v) :: others)))
        = inr v)
  /\ (forall (inspectObject : nat -> JS.value -> str),
        exists (template out : str) (data : JS.value),
          result (replace (host := dotted inspectObject) defaults
                    (VStr template) data) = inr out
          /\ result (replace (host := dotted inspectObject) defaults
                       (VStr out) data) <> inr out).
Proof.
  split; [|split].
  - intros host self data template out. apply replace_splice.
  - intros inspectObject v others. vm_compute. f_equal. apply app_nil_r.
  - intros inspectObject.
    exists ("<{a}>" : str), ("<{b}>" : str),
      (VObj [("a" : str, VStr "<{b}>"); ("b" : str, VStr "x")]).
    split; vm_compute; [reflexivity|discriminate].
Qed.

Lemma flat_pass_witness :
  is_object (VObj [("a" : str, VStr "<{b}>")]) = true
  /\ ("<{b}>" : str)
     = flat_map
         (fun m => m_before m
                   ++ ToString (transform defaults
                                  (hook_input (host := example_host)
                                     (VObj [("a" : str, VStr "<{b}>")])
                                     (keyStr_of m))))
         (placeholders defaults "<{a}>")
       ++ remainder defaults "<{a}>".
Proof.
  split; [reflexivity|].
  apply (proj1 flat_pass example_host defaults
           (VObj [("a" : str, VStr "<{b}>")]) "<{a}>" "<{b}>");
    reflexivity.
Defined.

(** The missing key of [<{name}> and <{score}>] on [{name: 'Charlie'}]. *)
Lemma missing_key_policy_witness :
  is_object (VObj [("name" : str, VStr "Charlie")]) = true
  /\ result (replace (host := example_host) defaults
               (VStr "<{name}> and <{score}>")
               (VObj [("name" : str, VStr "Charlie")]))
     = inl (MissingKey "score")
  /\ calls (replace (host := example_host) defaults
              (VStr "<{name}> and <{score}>")
              (VObj [("name" : str, VStr "Charlie")]))
     = [{| value := "Charlie"; defaultVal := None; key := "name" |}].
Proof.
  split; [reflexivity|].
  apply (proj1 (proj2 (missing_key_policy (host := example_host) defaults
                         (VObj [("name" : str, VStr "Charlie")])
                         "<{name}> and <{score}>" eq_refl))
           ["name" : str] ("score" : str) []);
    reflexivity.
Defined.

(** C3: the checks run in order, so a template that is not a string hides
    data that is [null]: the error is InvalidTemplateType. *)
Lemma template_check_first :
  is_null VNull = true
  /\ result (replace (host := example_host) defaults (VNum 42) VNull)
     = inl InvalidTemplateType
  /\ result (replace (host := example_host) defaults (VNum 42) VNull)
     <> inl InvalidDataType.
Proof. split; [reflexivity|split; [reflexivity|discriminate]]. Qed.

Lemma type_errors_witness :
  replace (host := example_host) defaults (VNum 42) (VObj [])
  = throw InvalidTemplateType
  /\ replace (host := example_host) defaults (VStr "x") VNull
     = throw InvalidDataType.
Proof.
  split.
  - apply (proj1 (type_errors (host := example_host) defaults (VObj [])
                    (VNum 42))).
    discriminate.
  - apply (proj2 (type_errors (host := example_host) defaults VNull
                    (VStr "x"))); [reflexivity|].
    left. reflexivity.
Defined.

Lemma hook_value_normalized_witness :
  replacer (host := example_host) defaults
    (VObj [("n" : str, VArr [VNum 1; VNum 2])]) "n"
  = inr ({| value := "[ 1, 2 ]"; defaultVal := None; key := "n" |},
         "[ 1, 2 ]" : str)
  /\ normalize (host := example_host) (VArr [VNum 1]) = "[ 1 ]"
  /\ normalize (host := example_host) (VNum (10 ^ 21)) = "1e+21".
Proof.
  split; [|split].
  - exact (proj1 (hook_value_normalized (host := example_host) defaults
                    (VObj [("n" : str, VArr [VNum 1; VNum 2])]) VNull "n"
                    (fun _ _ => eq_refl))).
  - exact (proj1 (proj2 (proj2 (hook_value_normalized
                                  (host := example_host)
                                  defaults VNull (VArr [VNum 1]) []
                                  (fun _ _ => eq_refl))))).
  - exact (proj1 (proj2 (proj2 (hook_value_normalized
                                  (host := example_host)
                                  defaults VNull (VNum (10 ^ 21)) []
                                  (fun _ _ => eq_refl))))).
Defined.

Lemma no_placeholder_identity_witness :
  replace (host := example_host) defaults (VStr "plain <{ text") (VObj [])
  = {| calls := []; result := inr ("plain <{ text" : str) |}.
Proof.
  apply (no_placeholder_identity (host := example_host) defaults (VObj [])
           "plain <{ text"); reflexivity.
Defined.

(** C10: in [<{}>x}>] the pair [<{}>] opens a placeholder whose key
    expression is [}>x]; the whole text is replaced and the pair is gone
    from the output. *)
Lemma empty_pair_absorbed :
  key_expressions defaults "<{}>x}>" = ["}>x" : str]
  /\ result (replace (host := example_host) defaults (VStr "<{}>x}>")
               (VObj [("}>x" : str, VStr "v")]))
     = inr ("v" : str).
Proof. split; reflexivity. Qed.

Lemma empty_span_not_matched_witness :
  replace (host := example_host) defaults (VStr "<{}>") (VObj [])
  = {| calls := []; result := inr ("<{}>" : str) |}.
Proof.
  apply (proj1 (proj2 (empty_span_not_matched (host := example_host)
                         defaults (VObj [])))).
  reflexivity.
Defined.

(** The pair in plain text, and after the last placeholder, stays where it
    is; before a placeholder it opens a longer one, up to the next closing
    delimiter. *)
Example empty_pair_in_plain_text :
  replace (host := example_host) defaults (VStr "abc <{}> def") (VObj [])
  = {| calls := []; result := inr ("abc <{}> def" : str) |}
  /\ result (replace (host := example_host) defaults
               (VStr "<{a}> <{}> end")
               (VObj [("a" : str, VNum 1)]))
     = inr ("1 <{}> end" : str)
  /\ key_expressions defaults "<{}> <{b}>" = ["}> <{b" : str].
Proof. repeat split; reflexivity. Qed.

End TemplatarFacts.

(** ** Further facts: the constructor, the scan, the callback *)
Module EngineFacts.
Import JS RegExp Templatar RegExpFacts TemplatarFacts.

(** X1: whatever the options, the delimiters of a constructed engine are
    not empty: a delimiter that is given and not empty is kept, one that is
    missing or empty is replaced by the default [<{] or [}>]. *)
Theorem constructor_delimiters (o : options) :
  starting (constructor o) <> [] /\ closing (constructor o) <> []
  /\ (forall d s,
        opt_delimiters o = Some d -> s <> [] ->
        (opt_starting d = Some s -> starting (constructor o) = s)
        /\ (opt_closing d = Some s -> closing (constructor o) = s))
  /\ (forall d,
        opt_delimiters o = Some d ->
        (opt_starting d = Some [] \/ opt_starting d = None ->
         starting (constructor o) = "<{")
        /\ (opt_closing d = Some [] \/ opt_closing d = None ->
            closing (constructor o) = "}>"))
  /\ (opt_delimiters o = None ->
      starting (constructor o) = "<{" /\ closing (constructor o) = "}>").
Proof.
  unfold constructor. cbn [starting closing].
  split; [|split; [|split; [|split]]].
  - destruct (opt_delimiters o) as [d|]; [|discriminate].
    destruct (opt_starting d) as [[|c s]|]; discriminate.
  - destruct (opt_delimiters o) as [d|]; [|discriminate].
    destruct (opt_closing d) as [[|c s]|]; discriminate.
  - intros d s -> Hne. split; intros ->; (destruct s; [congruence|reflexivity]).
  - intros d ->. split; intros [->| ->]; reflexivity.
  - intros ->. split; reflexivity.
Qed.

Lemma constructor_delimiters_witness :
  starting (constructor
              {| opt_delimiters :=
                   Some {| opt_starting := Some ("{{" : str);
                           opt_closing := Some [] |};
                 opt_ignoreMissing := None;
                 opt_transform := None |})
  = ("{{" : str)
  /\ closing (constructor
                {| opt_delimiters :=
                     Some {| opt_starting := Some ("{{" : str);
                             opt_closing := Some [] |};
                   opt_ignoreMissing := None;
                   opt_transform := None |})
     = ("}>" : str).
Proof.
  set (d := {| opt_starting := Some ("{{" : str); opt_closing := Some [] |}).
  set (o := {| opt_delimiters := Some d; opt_ignoreMissing := None;
               opt_transform := None |}).
  split.
  - apply (proj1 (proj1 (proj2 (proj2 (constructor_delimiters o)))
                    d ("{{" : str) eq_refl ltac:(discriminate))).
    reflexivity.
  - apply (proj2 (proj1 (proj2 (proj2 (proj2 (constructor_delimiters o))))
                    d eq_refl)).
    left. reflexivity.
Defined.

Section WithHost.
Context {host : Host}.
Variable self : t.

Lemma replace_invalid_data (template : str) (data : JS.value) :
  is_object data = false ->
  replace self (VStr template) data = throw InvalidDataType.
Proof.
  unfold is_object, replace. cbn [typeof tag_eqb negb].
  destruct data; intros H; try reflexivity; discriminate H.
Qed.

(** X2: the outcomes of [replace] when the path lookup, the rendering and
    the hook return (the model takes them as total functions; [replace]
    guards none of them, lines 40, 51 and 58, so an exception of theirs
    would pass through, and that case is outside the model).  A string
    comes out only of a string template and valid data; the three errors
    have the causes their names say, MissingKey naming the trimmed key of a
    placeholder of the template that is unresolved; and the engine's own
    steps raise nothing else: the pattern built from the delimiters always
    compiles and every match has the capture that line 36 splits. *)
Theorem replace_outcomes (template data : JS.value) :
  match result (replace self template data) with
  | inr _ => typeof template = TString /\ is_object data = true
  | inl InvalidTemplateType => typeof template <> TString
  | inl InvalidDataType => typeof template = TString /\ is_object data = false
  | inl (MissingKey k) =>
      typeof template = TString /\ is_object data = true
      /\ ignoreMissing self = false
      /\ exists keyStr,
           In keyStr (key_expressions self (as_string template))
           /\ unresolved data keyStr = true /\ k = key_of keyStr
  | inl EngineError => False
  end.
Proof.
  destruct template as [| | | |tpl| | |];
    try (cbn; discriminate).
  destruct (is_object data) eqn:Hd.
  - rewrite (replace_valid self data tpl Hd).
    pose proof (placeholders_keyed self tpl) as Hk.
    destruct (result (substitute self data (placeholders self tpl)
                        (remainder self tpl))) as [e|out] eqn:E.
    + apply substitute_error in E; [|exact Hk].
      destruct E as [m [Hin [Hf ->]]]. unfold fails in Hf.
      apply andb_true_iff in Hf. destruct Hf as [Hu Hi].
      apply negb_true_iff in Hi. repeat split; auto.
      exists (keyStr_of m). repeat split; auto.
      unfold key_expressions. cbn [as_string]. now apply in_map.
    + now split.
  - rewrite (replace_invalid_data tpl data Hd). cbn. now split.
Qed.

Variable data : JS.value.

Lemma substitute_calls (tail : str) : forall ms,
  Forall keyed ms ->
  let o := substitute self data ms tail in
  calls o
  = map (hook_input data) (firstn (length (calls o)) (map keyStr_of ms))
  /\ match result o with
     | inr _ => length (calls o) = length ms
     | inl _ => length (calls o) < length ms
     end.
Proof.
  induction ms as [|m ms IH]; intros Hk; [now split|].
  inversion Hk as [|? ? Hm Hms]; subst.
  specialize (IH Hms). cbn zeta in IH. destruct IH as [Hc Hr].
  cbn [substitute]. rewrite (on_match_keyed self data m Hm), replacer_cases.
  destruct (fails self data (keyStr_of m)).
  - cbn. split; [reflexivity|lia].
  - cbn [calls result length map firstn]. split.
    + f_equal. exact Hc.
    + destruct (result (substitute self data ms tail)); cbn [length]; lia.
Qed.

(** X3: the hook is called on the placeholders in the order of the
    template, once each, with the argument read from the placeholder's key
    expression: for all of them when a string is returned, for those before
    the failing one when MissingKey is thrown. *)
Theorem hook_calls_in_order (template : str) :
  is_object data = true ->
  let o := replace self (VStr template) data in
  let ks := key_expressions self template in
  calls o = map (hook_input data) (firstn (length (calls o)) ks)
  /\ match result o with
     | inr _ => calls o = map (hook_input data) ks
     | inl _ => length (calls o) < length ks
     end.
Proof.
  intros Hd o ks. subst o ks. rewrite (replace_valid self data template Hd).
  unfold key_expressions.
  destruct (substitute_calls (remainder self template)
              (placeholders self template)
              (placeholders_keyed self template)) as [Hc Hr].
  split; [exact Hc|].
  destruct (result (substitute self data (placeholders self template)
                      (remainder self template))).
  - now rewrite length_map.
  - rewrite Hc at 1. rewrite Hr, <- (length_map keyStr_of), firstn_all.
    reflexivity.
Qed.

(** *** The scan *)

Lemma match_all_exhaustive (starting closing : str) : forall fuel s,
  length s < fuel ->
  Spec.first_span starting closing []
    (snd (match_all_from fuel (compiled starting closing) [] s))
  = None.
Proof.
  induction fuel as [|fuel IH]; intros s Hl; [lia|].
  cbn [match_all_from]. rewrite exec_compiled.
  destruct (Spec.first_span starting closing [] s)
    as [[[before inner] rest]|] eqn:E; cbn [option_map]; [|exact E].
  apply first_span_sound in E. destruct E as [Hne Hs].
  cbn [Spec.span_match m_text m_after].
  destruct (starting ++ inner ++ closing) as [|x text] eqn:T.
  - exfalso. apply app_eq_nil in T. destruct T as [_ T].
    apply app_eq_nil in T. now destruct T.
  - assert (Hr : length rest < fuel).
    { cbn [rev app] in Hs. subst s. rewrite !length_app in Hl.
      destruct inner; [congruence|]. simpl in Hl. lia. }
    specialize (IH rest Hr).
    destruct (match_all_from fuel (compiled starting closing) [] rest)
      as [ms tl].
    exact IH.
Qed.

Lemma no_span_no_placeholder (template : str) :
  Spec.first_span (starting self) (closing self) [] template = None ->
  placeholders self template = [].
Proof.
  intros H. rewrite placeholders_compiled. unfold match_all.
  cbn [match_all_from]. now rewrite exec_compiled, H.
Qed.

(** X4: the scan cuts the template into the texts before the placeholders,
    the placeholders and the remainder, nothing lost and nothing
    overlapping; and it is complete: scanning the remainder again finds no
    placeholder. *)
Theorem scan_partition (template : str) :
  template
  = flat_map (fun m => m_before m ++ m_text m) (placeholders self template)
    ++ remainder self template
  /\ placeholders self (remainder self template) = [].
Proof.
  split.
  - rewrite placeholders_compiled, remainder_compiled.
    apply (match_all_partition (starting self) (closing self)
             (S (length template)) [] template).
  - apply no_span_no_placeholder. rewrite remainder_compiled.
    apply match_all_exhaustive. lia.
Qed.

(** X5: a template that does not hold the starting delimiter, or does not
    hold the closing one, is returned unchanged on valid data: a
    placeholder that is opened and never closed is plain text, and no
    error. *)
Theorem missing_delimiter_no_change (template : str) :
  (forall a b, template <> a ++ starting self ++ b)
  \/ (forall a b, template <> a ++ closing self ++ b) ->
  is_object data = true ->
  replace self (VStr template) data
  = {| calls := []; result := inr template |}.
Proof.
  intros Hno Hd. apply replace_without_placeholders; [exact Hd|].
  apply no_span_no_placeholder.
  destruct (Spec.first_span (starting self) (closing self) [] template)
    as [[[before inner] rest]|] eqn:E; [|reflexivity].
  apply first_span_sound in E. destruct E as [_ Hs]. cbn [rev app] in Hs.
  exfalso. destruct Hno as [Hno|Hno].
  - exact (Hno _ _ Hs).
  - apply (Hno (before ++ starting self ++ inner) rest).
    rewrite Hs, <- !app_assoc. reflexivity.
Qed.

(** X6: when every placeholder of the template carries a default, [replace]
    returns a string on valid data, also with [ignoreMissing] off. *)
Theorem defaults_never_missing (template : str) :
  is_object data = true ->
  Forall (fun keyStr => default_of keyStr <> None)
    (key_expressions self template) ->
  exists out, result (replace self (VStr template) data) = inr out.
Proof.
  intros Hd Hdef. rewrite (replace_valid self data template Hd).
  apply substitute_ok; [apply placeholders_keyed|].
  apply forallb_forall. intros m Hin.
  rewrite Forall_forall in Hdef.
  specialize (Hdef (keyStr_of m) (in_map keyStr_of _ _ Hin)).
  unfold fails, unresolved.
  destruct (default_of (keyStr_of m)); [|congruence].
  now rewrite andb_false_r.
Qed.

Lemma replacer_local (d1 d2 : JS.value) (keyStr : str) :
  resolvePath d1 (key_of keyStr) = resolvePath d2 (key_of keyStr) ->
  replacer self d1 keyStr = replacer self d2 keyStr.
Proof.
  intros H. rewrite !replacer_cases.
  unfold fails, unresolved, hook_input, resolved_value, getProperty.
  now rewrite H.
Qed.

(** X7: [replace] reads the data only at the keys the template names: two
    valid data objects in which every key of the template leads to the same
    value give the same outcome, hook calls included. *)
Theorem replace_reads_named_keys (template : str) (d1 d2 : JS.value) :
  is_object d1 = true -> is_object d2 = true ->
  Forall (fun keyStr =>
            resolvePath d1 (key_of keyStr) = resolvePath d2 (key_of keyStr))
    (key_expressions self template) ->
  replace self (VStr template) d1 = replace self (VStr template) d2.
Proof.
  intros H1 H2 Hsame.
  rewrite (replace_valid self d1 template H1),
          (replace_valid self d2 template H2).
  unfold key_expressions in Hsame.
  pose proof (placeholders_keyed self template) as Hk.
  induction (placeholders self template) as [|m ms IH]; [reflexivity|].
  inversion Hk as [|? ? Hm Hms]; subst.
  inversion Hsame as [|? ? Hx Hxs]; subst.
  cbn [substitute].
  rewrite (on_match_keyed self d1 m Hm), (on_match_keyed self d2 m Hm),
          (replacer_local d1 d2 _ Hx), (IH Hxs Hms).
  reflexivity.
Qed.

End WithHost.

Lemma hook_calls_in_order_witness :
  calls (replace (host := example_host) defaults
           (VStr "<{a}> <{b||x}> <{c}> <{d}>")
           (VObj [("a" : str, VNum 1)]))
  = map (hook_input (host := example_host) (VObj [("a" : str, VNum 1)]))
      (firstn 2 (key_expressions defaults "<{a}> <{b||x}> <{c}> <{d}>")).
Proof.
  exact (proj1 (hook_calls_in_order (host := example_host) defaults
                  (VObj [("a" : str, VNum 1)])
                  "<{a}> <{b||x}> <{c}> <{d}>" eq_refl)).
Defined.

(** *** Blanks around the key *)

Lemma trimStart_blank_app (l s : str) :
  forallb is_space l = true -> trimStart (l ++ s) = trimStart s.
Proof.
  induction l as [|c l IH]; intros H; [reflexivity|].
  cbn [forallb] in H. apply andb_true_iff in H. destruct H as [Hc Hl].
  cbn [app trimStart]. rewrite Hc. now apply IH.
Qed.

Lemma trimStart_blank (l : str) :
  forallb is_space l = true -> trimStart l = [].
Proof.
  intros H. rewrite <- (app_nil_r l). now rewrite trimStart_blank_app.
Qed.

Lemma trimStart_empty (k : str) :
  trimStart k = [] -> forallb is_space k = true.
Proof.
  induction k as [|c k IH]; [reflexivity|]. cbn [trimStart forallb].
  destruct (is_space c); [exact IH|discriminate].
Qed.

Lemma trimStart_app (k r : str) (c : ascii) (k' : str) :
  trimStart k = c :: k' -> trimStart (k ++ r) = (c :: k') ++ r.
Proof.
  induction k as [|x k IH]; [discriminate|]. cbn [trimStart app].
  destruct (is_space x); [exact IH|]. intros H. inversion H. reflexivity.
Qed.

Lemma forallb_rev {A : Type} (p : A -> bool) (l : list A) :
  forallb p l = true -> forallb p (rev l) = true.
Proof.
  rewrite !forallb_forall. intros H x Hx. apply H. now apply in_rev.
Qed.

Lemma trim_pad (l k r : str) :
  forallb is_space l = true -> forallb is_space r = true ->
  trim (l ++ k ++ r) = trim k.
Proof.
  intros Hl Hr. unfold trim. rewrite (trimStart_blank_app l _ Hl).
  destruct (trimStart k) as [|c k'] eqn:E.
  - rewrite trimStart_blank; [reflexivity|].
    rewrite forallb_app, (trimStart_empty k E), Hr. reflexivity.
  - rewrite (trimStart_app k r c k' E). unfold trimEnd.
    now rewrite rev_app_distr, (trimStart_blank_app _ _ (forallb_rev _ _ Hr)).
Qed.

Lemma blank_no_bar (l : str) :
  forallb is_space l = true -> forallb no_bar l = true.
Proof.
  rewrite !forallb_forall. intros H c Hc. specialize (H c Hc).
  unfold no_bar. destruct (Ascii.eqb_spec c "|"); [subst; discriminate H|].
  reflexivity.
Qed.

Lemma split_no_bar : forall s cur,
  forallb no_bar s = true -> split_bars_from cur s = [rev cur ++ s].
Proof.
  induction s as [|c s IH]; intros cur H.
  - cbn. now rewrite app_nil_r.
  - cbn [forallb] in H. apply andb_true_iff in H. destruct H as [Hc Hs].
    destruct s as [|c' s].
    + reflexivity.
    + rewrite split_bars_step. unfold is_bars.
      unfold no_bar in Hc. apply negb_true_iff in Hc. rewrite Hc.
      cbn [andb]. rewrite (IH (c :: cur) Hs). cbn [rev].
      now rewrite <- app_assoc.
Qed.

Lemma split_no_bar_then (d : str) : forall s cur,
  forallb no_bar s = true ->
  split_bars_from cur (s ++ "||" ++ d)
  = (rev cur ++ s) :: split_bars_from [] d.
Proof.
  induction s as [|c s IH]; intros cur H.
  - cbn. now rewrite app_nil_r.
  - cbn [forallb] in H. apply andb_true_iff in H. destruct H as [Hc Hs].
    unfold no_bar in Hc. apply negb_true_iff in Hc.
    cbn [app]. destruct (s ++ "||" ++ d) as [|c' s'] eqn:E.
    + destruct s; discriminate E.
    + rewrite split_bars_step. unfold is_bars. rewrite Hc. cbn [andb].
      rewrite (IH (c :: cur) Hs). cbn [rev].
      now rewrite <- app_assoc.
Qed.

(** X8: blanks around the key of a placeholder do not count.  For a key
    without [|], blanks before and after it leave the callback's result
    unchanged, with and without a default; the default itself is not
    touched. *)
Theorem key_blanks_ignored {host : Host} (self : t) (data : JS.value)
    (l k r d : str) :
  forallb is_space l = true -> forallb is_space r = true ->
  forallb no_bar k = true ->
  replacer self data (l ++ k ++ r) = replacer self data k
  /\ replacer self data (l ++ k ++ r ++ "||" ++ d)
     = replacer self data (k ++ "||" ++ d)
  /\ default_of (l ++ k ++ r ++ "||" ++ d) = default_of ("||" ++ d).
Proof.
  intros Hl Hr Hk.
  assert (Hlkr : forallb no_bar (l ++ k ++ r) = true)
    by (rewrite !forallb_app, (blank_no_bar l Hl), Hk, (blank_no_bar r Hr);
        reflexivity).
  assert (Hkey : key_of (l ++ k ++ r) = key_of k
                 /\ default_of (l ++ k ++ r) = default_of k).
  { unfold key_of, default_of, split_bars.
    rewrite (split_no_bar _ [] Hlkr), (split_no_bar _ [] Hk).
    cbn [rev app nth nth_error]. now rewrite trim_pad. }
  assert (Hdef : key_of (l ++ k ++ r ++ "||" ++ d) = key_of (k ++ "||" ++ d)
                 /\ default_of (l ++ k ++ r ++ "||" ++ d)
                    = default_of (k ++ "||" ++ d)
                 /\ default_of (l ++ k ++ r ++ "||" ++ d)
                    = default_of ("||" ++ d)).
  { unfold key_of, default_of, split_bars.
    replace (l ++ k ++ r ++ "||" ++ d) with ((l ++ k ++ r) ++ "||" ++ d)
      by (now rewrite <- !app_assoc).
    rewrite (split_no_bar_then d _ [] Hlkr), (split_no_bar_then d _ [] Hk).
    cbn [rev app nth nth_error]. now rewrite trim_pad. }
  destruct Hkey as [K1 D1]. destruct Hdef as [K2 [D2 D3]].
  split; [|split; [|exact D3]]; rewrite !replacer_cases;
    unfold fails, unresolved, hook_input, resolved_value.
  - now rewrite K1, D1.
  - now rewrite K2, D2.
Qed.

Lemma key_blanks_ignored_witness :
  replacer (host := example_host) defaults
    (VObj [("name" : str, VStr "Bob")]) "  name  "
  = replacer (host := example_host) defaults
      (VObj [("name" : str, VStr "Bob")]) "name".
Proof.
  exact (proj1 (key_blanks_ignored (host := example_host) defaults
                  (VObj [("name" : str, VStr "Bob")])
                  "  " "name" "  " "x" eq_refl eq_refl eq_refl)).
Defined.

(** *** The end of a placeholder *)

Lemma find_close_minimal (closing : str) : forall s acc inner rest,
  Spec.find_close closing acc s = Some (inner, rest) ->
  forall a b, s = a ++ closing ++ b -> length inner <= length acc + length a.
Proof.
  induction s as [|c s IH]; intros acc inner rest H a b Hs;
    cbn [Spec.find_close] in H.
  - destruct (strip_prefix closing []); [|discriminate].
    inversion H; subst. rewrite length_rev. lia.
  - destruct (strip_prefix closing (c :: s)) as [r|] eqn:E.
    + inversion H; subst. rewrite length_rev. lia.
    + destruct a as [|x a].
      * cbn [app] in Hs. rewrite Hs, strip_prefix_same in E. discriminate E.
      * cbn [app] in Hs. inversion Hs; subst.
        specialize (IH _ _ _ H a b eq_refl). cbn [length] in *. lia.
Qed.

Lemma first_span_literal (starting closing : str) :
  forall s skipped before inner rest,
  Spec.first_span starting closing skipped s = Some (before, inner, rest) ->
  exists s', Spec.literal_span starting closing s' = Some (inner, rest).
Proof.
  induction s as [|c s IH]; intros skipped before inner rest H;
    cbn [Spec.first_span] in H.
  - destruct (Spec.literal_span starting closing []) as [[i r]|] eqn:E;
      [|discriminate].
    inversion H; subst. now exists [].
  - destruct (Spec.literal_span starting closing (c :: s)) as [[i r]|] eqn:E.
    + inversion H; subst. now exists (c :: s).
    + now apply (IH _ _ _ _ H).
Qed.

Lemma match_all_from_Forall (r : regex) (P : match_result -> Prop) :
  (forall skipped s m, exec_from r skipped s = Some m -> P m) ->
  forall fuel skipped s, Forall P (fst (match_all_from fuel r skipped s)).
Proof.
  intros HP. induction fuel as [|fuel IH]; intros skipped s;
    cbn [match_all_from]; [constructor|].
  destruct (exec_from r skipped s) as [m|] eqn:E; [|constructor].
  apply HP in E.
  destruct (m_text m) as [|x text].
  - destruct (m_after m) as [|c rest].
    + cbn [fst]. constructor; [exact E|constructor].
    + specialize (IH [c] rest).
      destruct (match_all_from fuel r [c] rest). cbn [fst] in *.
      constructor; assumption.
  - specialize (IH [] (m_after m)).
    destruct (match_all_from fuel r [] (m_after m)). cbn [fst] in *.
    constructor; assumption.
Qed.

(** X9: a placeholder ends at the nearest closing delimiter: past the first
    character of its key expression, the closing delimiter that ends it is
    the first occurrence of the closing delimiter in the text. *)
Theorem placeholder_ends_at_nearest_closing (self : t) (template : str)
    (m : match_result) :
  In m (placeholders self template) ->
  exists c more,
    keyStr_of m = c :: more
    /\ forall a b,
         more ++ closing self ++ m_after m = a ++ closing self ++ b ->
         length more <= length a.
Proof.
  intros Hin.
  set (P := fun m : match_result =>
              exists c more,
                keyStr_of m = c :: more
                /\ forall a b,
                     more ++ closing self ++ m_after m
                     = a ++ closing self ++ b ->
                     length more <= length a).
  assert (HF : Forall P (placeholders self template)).
  { rewrite placeholders_compiled. unfold match_all.
    apply match_all_from_Forall. subst P. cbv beta. clear.
  intros skipped s m E. rewrite exec_compiled in E.
  destruct (Spec.first_span (starting self) (closing self) skipped s)
    as [[[before inner] rest]|] eqn:F; [|discriminate].
  inversion E; subst. clear E.
  apply first_span_literal in F. destruct F as [s' F].
  unfold Spec.literal_span in F.
  destruct (strip_prefix (starting self) s') as [[|c s'']|]; try discriminate.
  destruct (find_close_sound _ _ _ _ _ F) as [more [Hi Hs]].
  cbn [rev app] in Hi. exists c, more. split; [now subst|].
  intros a b Hab. cbn [Spec.span_match m_after] in Hab.
  pose proof (find_close_minimal _ _ _ _ _ F a b) as Hmin.
    rewrite Hs in Hmin. specialize (Hmin Hab). subst inner.
    cbn [length] in Hmin. lia. }
  rewrite Forall_forall in HF. exact (HF m Hin).
Qed.

Lemma placeholder_ends_at_nearest_closing_witness :
  exists c more,
    keyStr_of {| m_before := []; m_text := "<{ab}>";
                 m_caps := [(1, "ab" : str)]; m_after := "}>" |}
    = c :: more
    /\ forall a b : str,
         more ++ closing defaults ++ "}>" = a ++ closing defaults ++ b ->
         length more <= length a.
Proof.
  apply (placeholder_ends_at_nearest_closing defaults "<{ab}>}>"
           {| m_before := []; m_text := "<{ab}>";
              m_caps := [(1, "ab" : str)]; m_after := "}>" |}).
  left. reflexivity.
Defined.

(** *** The escaping of the delimiters *)

(** X10: escaping makes any string a pattern for itself: the escaped text
    compiles, and the expression matches at the head of an input exactly
    when the input starts with the string as written, in one way, leaving
    what follows it. *)
Theorem escaped_matches_itself (s : str) :
  exists pattern,
    new_RegExp (escapeRegExp s) = Some pattern
    /\ forall (caps : captures) (input : str),
         run pattern caps input
         = match strip_prefix s input with
           | Some rest => [(caps, rest)]
           | None => []
           end.
Proof.
  exists (seq_of (map RChar s)). split.
  - unfold new_RegExp. change initial with (pattern_state [] [] [] 0 1).
    rewrite <- (app_nil_r (escapeRegExp s)), parse_escaped.
    cbn [parse_from finish pattern_state p_mode p_open p_frame].
    unfold frame_regex. cbn [f_terms f_alts rev app alt_of].
    now rewrite app_nil_r, rev_involutive.
  - intros caps input. apply run_closing.
Qed.

(** *** The message of MissingKey *)

(** X11: the message of a MissingKey error tells the key: two such errors
    with the same message name the same key, and the message is neither of
    the two messages of the type errors. *)
Theorem message_names_key (k1 k2 : str) :
  (message (MissingKey k1) = message (MissingKey k2) -> k1 = k2)
  /\ message (MissingKey k1) <> message InvalidTemplateType
  /\ message (MissingKey k1) <> message InvalidDataType.
Proof.
  unfold message. split; [|split]; try discriminate.
  intros H. apply app_inv_head in H. apply app_inv_head in H.
  now apply app_inv_tail in H.
Qed.

Lemma message_names_key_witness :
  ("score" : str) = "score".
Proof.
  exact (proj1 (message_names_key "score" "score") eq_refl).
Defined.

(** *** The two listings of the class *)

Section Listings.
Context {host : Host}.
Variable d : option delimiters_option.
Variable b : option bool.
Variable data : JS.value.

Let self1 : t :=
  constructor {| opt_delimiters := d; opt_ignoreMissing := b;
                 opt_transform := None |}.

Let self0 : Templatar0.t :=
  Templatar0.constructor
    {| Templatar0.opt_delimiters := d; Templatar0.opt_ignoreMissing := b;
       Templatar0.opt_transform := None |}.

Lemma normalize_scalar (v : JS.value) :
  is_structured v = false -> normalize v = ToString v.
Proof.
  destruct v; intros H; try reflexivity; discriminate H.
Qed.

Lemma listings_replacer (keyStr : str) :
  is_structured (resolved_value data keyStr) = false ->
  match Templatar0.replacer self0 data keyStr,
        replacer self1 data keyStr with
  | inl e0, inl e1 => e0 = e1
  | inr (_, text0), inr (_, text1) => text0 = text1
  | _, _ => False
  end.
Proof.
  intros Hs. rewrite replacer_cases.
  unfold Templatar0.replacer, fails, unresolved, hook_input.
  fold (key_of keyStr). fold (default_of keyStr).
  fold (resolved_value data keyStr).
  assert (Hu : is_undefined (resolved_value data keyStr)
               = is_undefined (resolvePath data (key_of keyStr))
                 && match default_of keyStr with
                    | Some _ => false
                    | None => true
                    end).
  { unfold resolved_value, getProperty.
    destruct (resolvePath data (key_of keyStr));
      destruct (default_of keyStr); reflexivity. }
  rewrite <- Hu.
  change (Templatar0.ignoreMissing self0) with (ignoreMissing self1).
  destruct (is_undefined (resolved_value data keyStr)
            && negb (ignoreMissing self1)); [reflexivity|].
  cbn. symmetry. now apply normalize_scalar.
Qed.

Lemma listings_substitute (tail : str) : forall ms,
  Forall keyed ms ->
  Forall (fun m => is_structured (resolved_value data (keyStr_of m)) = false)
    ms ->
  Templatar0.result (Templatar0.substitute self0 data ms tail)
  = result (substitute self1 data ms tail).
Proof.
  induction ms as [|m ms IH]; intros Hk Hs; [reflexivity|].
  inversion Hk as [|? ? Hm Hms]; subst.
  inversion Hs as [|? ? Hx Hxs]; subst.
  cbn [Templatar0.substitute substitute].
  rewrite (on_match_keyed self1 data m Hm).
  assert (H0 : Templatar0.on_match self0 data m
               = Templatar0.replacer self0 data (keyStr_of m)).
  { destruct Hm as [inner [_ Hc]]. unfold Templatar0.on_match, keyStr_of.
    now rewrite Hc. }
  rewrite H0. pose proof (listings_replacer (keyStr_of m) Hx) as Hr.
  destruct (Templatar0.replacer self0 data (keyStr_of m)) as [e0|[a0 t0]];
    destruct (replacer self1 data (keyStr_of m)) as [e1|[a1 t1]];
    try contradiction.
  - cbn. now subst.
  - cbn [Templatar0.result result]. rewrite (IH Hms Hxs). subst.
    reflexivity.
Qed.

(** X12: the two listings of the class agree wherever no array or object
    is substituted: built from the same delimiters and [ignoreMissing], with
    the default hook, they return the same string or throw the same error
    on every template and valid data in which each placeholder resolves to
    a value that is not an array or an object. *)
Theorem listings_agree (template : str) :
  is_object data = true ->
  Forall (fun keyStr => is_structured (resolved_value data keyStr) = false)
    (key_expressions self1 template) ->
  Templatar0.result (Templatar0.replace self0 (VStr template) data)
  = result (replace self1 (VStr template) data).
Proof.
  intros Hd Hs. rewrite (replace_valid self1 data template Hd).
  unfold Templatar0.replace. unfold is_object in Hd.
  apply andb_true_iff in Hd. destruct Hd as [Ht Hn].
  apply negb_true_iff in Hn.
  cbn [typeof tag_eqb negb as_string]. rewrite Ht, Hn. cbn [negb orb].
  change (Templatar0.starting self0) with (starting self1).
  change (Templatar0.closing self0) with (closing self1).
  rewrite new_RegExp_pattern, placeholders_compiled, remainder_compiled.
  unfold key_expressions in Hs. rewrite placeholders_compiled in Hs.
  pose proof (placeholders_keyed self1 template) as Hk.
  rewrite placeholders_compiled in Hk.
  destruct (match_all (compiled (starting self1) (closing self1)) template)
    as [ms tail].
  cbn [fst snd] in *. apply listings_substitute; [exact Hk|].
  now apply Forall_map in Hs.
Qed.

End Listings.

Lemma listings_agree_witness :
  Templatar0.result
    (Templatar0.replace (host := example_host)
       (Templatar0.constructor
          {| Templatar0.opt_delimiters := None;
             Templatar0.opt_ignoreMissing := Some true;
             Templatar0.opt_transform := None |})
       (VStr "<{a}>, <{b||x}>, <{c}>")
       (VObj [("a" : str, VNum 3); ("b" : str, VNull)]))
  = result (replace (host := example_host) lenient
              (VStr "<{a}>, <{b||x}>, <{c}>")
              (VObj [("a" : str, VNum 3); ("b" : str, VNull)])).
Proof.
  apply (listings_agree (host := example_host) None (Some true)
           (VObj [("a" : str, VNum 3); ("b" : str, VNull)])
           "<{a}>, <{b||x}>, <{c}>"); [reflexivity|].
  repeat constructor.
Defined.

(** *** Instances *)

Lemma missing_delimiter_no_change_witness :
  replace (host := example_host) defaults (VStr "a <{ b") (VObj [])
  = {| calls := []; result := inr ("a <{ b" : str) |}.
Proof.
  apply (missing_delimiter_no_change (host := example_host) defaults (VObj [])
           "a <{ b"); [|reflexivity].
  right. intros a b H. cbn in H.
  do 6 (destruct a as [|? a]; [discriminate H|injection H as _ H]).
  destruct a; discriminate H.
Defined.

Lemma defaults_never_missing_witness :
  exists out,
    result (replace (host := example_host) defaults
              (VStr "<{a||1}> <{b||2}>") (VObj []))
    = inr out.
Proof.
  apply (defaults_never_missing (host := example_host) defaults (VObj [])
           "<{a||1}> <{b||2}>"); [reflexivity|].
  apply Forall_forall. intros k Hk. vm_compute in Hk.
  destruct Hk as [<-|[<-|[]]]; vm_compute; discriminate.
Defined.

Lemma replace_reads_named_keys_witness :
  replace (host := example_host) defaults (VStr "<{a}>!")
    (VObj [("a" : str, VNum 1); ("z" : str, VNum 2)])
  = replace (host := example_host) defaults (VStr "<{a}>!")
      (VObj [("a" : str, VNum 1)]).
Proof.
  apply (replace_reads_named_keys (host := example_host) defaults "<{a}>!");
    [reflexivity|reflexivity|].
  apply Forall_forall. intros k Hk. vm_compute in Hk.
  destruct Hk as [<-|[]]. reflexivity.
Defined.

End EngineFacts.
